(** * LightShow: the event-driven state of the [App] component

    A shallow embedding of the stateful part of [src/app.jsx]: the ripple
    collection with its removal timers ([handleWaterClick]), the cursor
    tracker throttled by [requestAnimationFrame] ([updateCursor],
    [handleMouseMove], [handleTouchMove]) and the scroll-to-translation
    mapping [yTranslate].

    The handlers are written in a small state-and-exception monad [JS] over
    the component's state; the browser's event loop is a step function over
    the same state.  Closures handed to [setTimeout] and
    [requestAnimationFrame] are defunctionalised: one constructor per lambda
    of the source, carrying the variables the lambda captures. *)

From stdpp Require Import base numbers list strings gmap pretty sorting.
From Stdlib Require Import QArith Qabs Lqa.

Local Open Scope Z_scope.

(** ** Data *)

(** [{ id: number; x: number; y: number }], the element type of [ripples]. *)
Module Ripple.
Record t : Type := mk { id : Z; x : Z; y : Z }.
End Ripple.

(** The fields of a [MouseEvent] the handlers read. *)
Module MouseEvent.
Record t : Type := mk { clientX : Z; clientY : Z }.
End MouseEvent.

Module Touch.
Record t : Type := mk { clientX : Z; clientY : Z }.
End Touch.

(** The field of a [TouchEvent] the handlers read: its [touches] list. *)
Module TouchEvent.
Record t : Type := mk { touches : list Touch.t }.
End TouchEvent.

#[global] Instance Ripple_eq_dec : EqDecision Ripple.t.
Proof. solve_decision. Defined.

(** The lambda given to [setTimeout] in [handleWaterClick]; it captures
    [newRipple]. *)
Inductive TimerCallback : Type :=
| removeRipple (newRipple : Ripple.t).

(** The lambda given to [requestAnimationFrame] in [updateCursor]; it
    captures [x] and [y]. *)
Inductive FrameCallback : Type :=
| writeCursor (x y : Z).

#[global] Instance TimerCallback_eq_dec : EqDecision TimerCallback.
Proof. solve_decision. Defined.

(** A pending timer: the instant at which it expires and its callback. *)
Record Timer : Type := mkTimer { due : Z; callback : TimerCallback }.

#[global] Instance Timer_eq_dec : EqDecision Timer.
Proof. solve_decision. Defined.

(** ** Time

    The clock counts microseconds.  [Date.now()] reports whole milliseconds,
    and the delay given to [setTimeout] is in milliseconds.  A timer expires
    when its delay has passed; its callback runs at some later turn of the
    event loop, never earlier. *)
Definition ticks_per_ms : Z := 1000.

Definition ms (n : Z) : Z := n * ticks_per_ms.

(** ** State

    - [clock]: the current instant;
    - [ripples]: the React state [ripples] (line 6);
    - [timers]: the timers set by [setTimeout] that have not run yet, in the
      order they were set;
    - [ticking]: the variable [ticking] of the cursor effect (line 10);
    - [frames]: the callbacks queued by [requestAnimationFrame] for the next
      animation frame;
    - [style]: the custom properties of [document.documentElement.style];
    - [style_log]: every [setProperty] call made so far, oldest first. *)
Record State : Type := mkState {
  clock : Z;
  ripples : list Ripple.t;
  timers : list Timer;
  ticking : bool;
  frames : list FrameCallback;
  style : gmap string string;
  style_log : list (string * string)
}.

(** ** The monad of handlers *)

Inductive JsError : Type :=
| TypeError.

Inductive outcome (A : Type) : Type :=
| Ok (a : A) (s : State)
| Throw (e : JsError).
Arguments Ok {A} a s.
Arguments Throw {A} e.

Definition JS (A : Type) : Type := State → outcome A.

Definition ret {A} (a : A) : JS A := λ s, Ok a s.

Definition bind {A B} (m : JS A) (k : A → JS B) : JS B :=
  λ s, match m s with
       | Ok a s' => k a s'
       | Throw e => Throw e
       end.

Definition throw {A} (e : JsError) : JS A := λ _, Throw e.

Notation "'let!' x ':=' m 'in' k" := (bind m (λ x, k))
  (at level 10, x name, m at level 100, k at level 200, only parsing).
Notation "m >> k" := (bind m (λ _, k))
  (at level 90, right associativity, only parsing).

(** *** Primitives: React state, timers, animation frames, the DOM *)

(** [Date.now()] *)
Definition Date_now : JS Z :=
  λ s, Ok (clock s / ticks_per_ms) s.

(** [setRipples(updater)], with a functional updater.  React applies queued
    updaters in order before the next render; the update is applied here at
    once, which gives the same sequence of rendered values. *)
Definition setRipples (updater : list Ripple.t → list Ripple.t) : JS unit :=
  λ s, Ok tt (mkState (clock s) (updater (ripples s)) (timers s)
                      (ticking s) (frames s) (style s) (style_log s)).

(** [setTimeout(cb, delay)]; the handle it returns is dropped by the caller. *)
Definition setTimeout (cb : TimerCallback) (delay : Z) : JS unit :=
  λ s, Ok tt (mkState (clock s) (ripples s)
                      (timers s ++ [mkTimer (clock s + ms delay) cb])
                      (ticking s) (frames s) (style s) (style_log s)).

(** [requestAnimationFrame(cb)] *)
Definition requestAnimationFrame (cb : FrameCallback) : JS unit :=
  λ s, Ok tt (mkState (clock s) (ripples s) (timers s)
                      (ticking s) (frames s ++ [cb]) (style s) (style_log s)).

(** [document.documentElement.style.setProperty(name, value)] *)
Definition setProperty (name value : string) : JS unit :=
  λ s, Ok tt (mkState (clock s) (ripples s) (timers s)
                      (ticking s) (frames s) (<[name := value]> (style s))
                      (style_log s ++ [(name, value)])).

Definition get_ticking : JS bool := λ s, Ok (ticking s) s.

Definition set_ticking (b : bool) : JS unit :=
  λ s, Ok tt (mkState (clock s) (ripples s) (timers s)
                      b (frames s) (style s) (style_log s)).

(** The template literal [`${x}px`] *)
Definition px (x : Z) : string := pretty x +:+ "px".

(** [.clientX] and [.clientY] of [e.touches[0]]: the element may be
    [undefined], and reading a property of [undefined] throws. *)
Definition Touch_clientX (t : option Touch.t) : JS Z :=
  match t with
  | Some t => ret (Touch.clientX t)
  | None => throw TypeError
  end.

Definition Touch_clientY (t : option Touch.t) : JS Z :=
  match t with
  | Some t => ret (Touch.clientY t)
  | None => throw TypeError
  end.

(** ** The handlers of [App] *)

(** Lines 12-21. *)
Definition updateCursor (x y : Z) : JS unit :=
  let! t := get_ticking in
  if negb t then
    requestAnimationFrame (writeCursor x y) >>
    set_ticking true
  else ret tt.

(** Line 23. *)
Definition handleMouseMove (e : MouseEvent.t) : JS unit :=
  updateCursor (MouseEvent.clientX e) (MouseEvent.clientY e).

(** Lines 24-28. *)
Definition handleTouchMove (e : TouchEvent.t) : JS unit :=
  if bool_decide (0 < Z.of_nat (length (TouchEvent.touches e))) then
    let! x := Touch_clientX (TouchEvent.touches e !! 0%nat) in
    let! y := Touch_clientY (TouchEvent.touches e !! 0%nat) in
    updateCursor x y
  else ret tt.

(** Lines 46-53. *)
Definition handleWaterClick (e : MouseEvent.t) : JS unit :=
  let! t := Date_now in
  let newRipple := Ripple.mk t (MouseEvent.clientX e) (MouseEvent.clientY e) in
  setRipples (λ prev, prev ++ [newRipple]) >>
  setTimeout (removeRipple newRipple) 2000.

(** The bodies of the two lambdas. *)
Definition run_timer_callback (cb : TimerCallback) : JS unit :=
  match cb with
  | removeRipple newRipple =>
      setRipples (λ prev,
        filter (λ r, Ripple.id r ≠ Ripple.id newRipple) prev)
  end.

Definition run_frame_callback (cb : FrameCallback) : JS unit :=
  match cb with
  | writeCursor x y =>
      setProperty "--cursor-x" (px x) >>
      setProperty "--cursor-y" (px y) >>
      set_ticking false
  end.

(** ** The event loop *)

(** What the browser can do next: deliver an input event to its listener
    ([onClick] of the spotlight container; [mousemove], [touchmove] and
    [touchstart] on [window]), run the [k]-th pending timer, run an animation
    frame, or let [d] microseconds pass. *)
Inductive Event : Type :=
| click (e : MouseEvent.t)
| mousemove (e : MouseEvent.t)
| touchmove (e : TouchEvent.t)
| touchstart (e : TouchEvent.t)
| timeout (k : nat)
| animationFrame
| elapse (d : Z).

(** A timer can run once it has expired, at any later moment; time does not
    go backwards. *)
Definition ready (s : State) (ev : Event) : bool :=
  match ev with
  | timeout k =>
      match timers s !! k with
      | Some tm => bool_decide (due tm ≤ clock s)
      | None => false
      end
  | elapse d => bool_decide (0 ≤ d)
  | _ => true
  end.

(** Running the [k]-th pending timer removes it from the pending list and
    calls its callback. *)
Definition run_timer (k : nat) : JS unit :=
  λ s, match timers s !! k with
       | Some tm =>
           run_timer_callback (callback tm)
             (mkState (clock s) (ripples s) (delete k (timers s))
                      (ticking s) (frames s) (style s) (style_log s))
       | None => Ok tt s
       end.

Fixpoint run_frame_callbacks (cbs : list FrameCallback) : JS unit :=
  match cbs with
  | [] => ret tt
  | cb :: cbs => run_frame_callback cb >> run_frame_callbacks cbs
  end.

(** An animation frame runs the callbacks queued before it, in order. *)
Definition run_animation_frame : JS unit :=
  λ s, run_frame_callbacks (frames s)
         (mkState (clock s) (ripples s) (timers s)
                  (ticking s) [] (style s) (style_log s)).

Definition pass (d : Z) : JS unit :=
  λ s, Ok tt (mkState (clock s + d) (ripples s) (timers s)
                      (ticking s) (frames s) (style s) (style_log s)).

Definition dispatch (ev : Event) : JS unit :=
  match ev with
  | click e => handleWaterClick e
  | mousemove e => handleMouseMove e
  | touchmove e => handleTouchMove e
  | touchstart e => handleTouchMove e
  | timeout k => run_timer k
  | animationFrame => run_animation_frame
  | elapse d => pass d
  end.

Definition step (s : State) (ev : Event) : option State :=
  if ready s ev then
    match dispatch ev s with
    | Ok _ s' => Some s'
    | Throw _ => None
    end
  else None.

Fixpoint run (s : State) (evs : list Event) : option State :=
  match evs with
  | [] => Some s
  | ev :: evs =>
      match step s ev with
      | Some s' => run s' evs
      | None => None
      end
  end.

(** [`${n / 2}px`] for a non-negative integer [n]. *)
Definition half_px (n : N) : string :=
  if N.even n then pretty (n / 2)%N +:+ "px"
  else pretty (n / 2)%N +:+ ".5px".

(** The state once [App] is mounted at instant [t0] in a window of the given
    inner size: no ripple, no timer, [ticking] false, and the initial
    centering of lines 31-32 done. *)
Definition mount (t0 : Z) (innerWidth innerHeight : N) : State :=
  mkState t0 [] [] false []
    (<["--cursor-y" := half_px innerHeight]>
       (<["--cursor-x" := half_px innerWidth]> ∅))
    [("--cursor-x", half_px innerWidth); ("--cursor-y", half_px innerHeight)].

Definition reachable (s : State) : Prop :=
  ∃ t0 w h evs, run (mount t0 w h) evs = Some s.

(** The record a click handled in state [s] creates (line 47). *)
Definition ripple_at (s : State) (e : MouseEvent.t) : Ripple.t :=
  Ripple.mk (clock s / ticks_per_ms) (MouseEvent.clientX e) (MouseEvent.clientY e).

(** The record created by handling [ev] in state [s], if [ev] is a click,
    with the instant of its creation. *)
Definition born (s : State) (ev : Event) : list (Z * Ripple.t) :=
  match ev with
  | click e => [(clock s, ripple_at s e)]
  | _ => []
  end.

(** The clicks handled in a run, each with the instant at which it was
    handled and the record it created. *)
Fixpoint births (s : State) (evs : list Event) : list (Z * Ripple.t) :=
  match evs with
  | [] => []
  | ev :: evs =>
      match step s ev with
      | Some s' => born s ev ++ births s' evs
      | None => []
      end
  end.

Definition two_seconds : Z := ms 2000.

(** The record a timer's callback was created for. *)
Definition target (tm : Timer) : Ripple.t :=
  match callback tm with
  | removeRipple newRipple => newRipple
  end.

(** The timer a click handled at instant [t] sets for its record [r]. *)
Definition timer_of (t : Z) (r : Ripple.t) : Timer :=
  mkTimer (t + two_seconds) (removeRipple r).

(** No pending timer has expired. *)
Definition no_timer_overdue (s : State) : Prop :=
  ∀ tm, tm ∈ timers s → clock s < due tm.

(** The effect of each kind of step on the clock, the collection and the
    pending timers. *)
Definition ripple_step (s : State) (ev : Event) (s' : State) : Prop :=
  match ev with
  | click e =>
      clock s' = clock s ∧
      ripples s' = ripples s ++ [ripple_at s e] ∧
      timers s' = timers s ++ [timer_of (clock s) (ripple_at s e)]
  | timeout k =>
      ∃ tm, timers s !! k = Some tm ∧ due tm ≤ clock s ∧
            clock s' = clock s ∧
            ripples s' =
              filter (λ r, Ripple.id r ≠ Ripple.id (target tm)) (ripples s) ∧
            timers s' = delete k (timers s)
  | elapse d =>
      0 ≤ d ∧ clock s' = clock s + d ∧
      ripples s' = ripples s ∧ timers s' = timers s
  | _ =>
      clock s' = clock s ∧ ripples s' = ripples s ∧ timers s' = timers s
  end.

(** A step that leaves the clock, the collection and the timers alone. *)
Ltac same_ripple_side H :=
  let Hc := fresh in let Hr := fresh in let Ht := fresh in
  destruct H as (Hc & Hr & Ht); rewrite Hc, Hr, Ht.

(** ** The history invariant

    [bs] lists the clicks handled so far.  Every one of them happened in the
    past and stamped its record with [Date.now()]; its timer is pending
    unless it has expired; and while its record is in the collection, its
    timer is pending.  Every record of the collection comes from a click. *)
Definition birth_inv (bs : list (Z * Ripple.t)) (s : State) : Prop :=
  (∀ r, r ∈ ripples s → ∃ t, (t, r) ∈ bs) ∧
  ∀ t r, (t, r) ∈ bs →
    t ≤ clock s ∧
    Ripple.id r = t / ticks_per_ms ∧
    (timer_of t r ∈ timers s ∨ t + two_seconds ≤ clock s) ∧
    (r ∈ ripples s → timer_of t r ∈ timers s).

(** A timer is still pending, or [Date.now()] has passed the identifier of
    its record and no record with that identifier is left. *)
Definition pending_or_gone (tm : Timer) (s : State) : Prop :=
  tm ∈ timers s ∨
  (Ripple.id (target tm) < clock s / ticks_per_ms ∧
   ∀ r, r ∈ ripples s → Ripple.id r ≠ Ripple.id (target tm)).

(** A state to try things on: the component mounted at instant 0 in a window
    of 1024 by 768, and what a run makes of a state. *)
Definition mounted : State := mount 0 1024 768.

Definition after (s : State) (evs : list Event) : State :=
  default s (run s evs).

(** ** The cursor side of the state *)

(** The coordinates a move event hands to [updateCursor], if any: a touch
    event without touches hands over nothing. *)
Definition pointer_position (ev : Event) : option (Z * Z) :=
  match ev with
  | mousemove e => Some (MouseEvent.clientX e, MouseEvent.clientY e)
  | touchmove e | touchstart e =>
      match TouchEvent.touches e with
      | t :: _ => Some (Touch.clientX t, Touch.clientY t)
      | [] => None
      end
  | _ => None
  end.

Definition is_move (ev : Event) : Prop :=
  match ev with
  | mousemove _ | touchmove _ | touchstart _ => True
  | _ => False
  end.

(** The two [setProperty] calls of a frame callback. *)
Definition cursor_writes (x y : Z) : list (string * string) :=
  [("--cursor-x", px x); ("--cursor-y", px y)].

(** [ticking] is true exactly while one callback is queued for the next
    frame; otherwise none is. *)
Definition cursor_inv (s : State) : Prop :=
  (ticking s = false ∧ frames s = []) ∨
  (ticking s = true ∧ ∃ x y, frames s = [writeCursor x y]).

(** The effect of each kind of step on the cursor side of the state. *)
Definition cursor_step (s : State) (ev : Event) (s' : State) : Prop :=
  match ev with
  | mousemove _ | touchmove _ | touchstart _ =>
      match pointer_position ev with
      | Some (x, y) => updateCursor x y s = Ok tt s'
      | None => s' = s
      end
  | animationFrame => run_animation_frame s = Ok tt s'
  | _ =>
      ticking s' = ticking s ∧ frames s' = frames s ∧
      style s' = style s ∧ style_log s' = style_log s
  end.

(** Between two animation frames: nothing is written, and at most one
    callback joins the queue, only if the queue was empty. *)
Definition at_most_one_queued (s s' : State) : Prop :=
  frames s' = frames s ∨ (frames s = [] ∧ ∃ x y, frames s' = [writeCursor x y]).

(** ** The timers of a run *)

(** The timer run by handling [ev] in state [s], if [ev] runs one. *)
Definition run_now (s : State) (ev : Event) : list Timer :=
  match ev with
  | timeout k => option_list (timers s !! k)
  | _ => []
  end.

(** The timers run in the course of a run. *)
Fixpoint fired (s : State) (evs : list Event) : list Timer :=
  match evs with
  | [] => []
  | ev :: evs =>
      match step s ev with
      | Some s' => run_now s ev ++ fired s' evs
      | None => []
      end
  end.

Definition timer_of_birth (b : Z * Ripple.t) : Timer := timer_of b.1 b.2.

(** ** The scroll translation *)

(** [useTransform(smoothProgress, [0, 1], ["0%", "-85.714%"])] (line 70):
    the progress is clamped to the input range and the output is the linear
    mix of the two percentages.  Percentages are exact rationals here. *)
Definition yTranslate_from : Q := 0.

Definition yTranslate_to : Q := - (85714 # 1000).

Definition clamp01 (p : Q) : Q :=
  if Qle_bool p 0 then 0%Q else if Qle_bool 1 p then 1%Q else p.

Definition mix (from to p : Q) : Q := (from + (to - from) * p)%Q.

(** The value of [yTranslate], in percent of the layer's own height. *)
Definition yTranslate (smoothProgress : Q) : Q :=
  mix yTranslate_from yTranslate_to (clamp01 smoothProgress).

(** The content layer is [h-[700vh]] (line 101); a translation by a
    percentage of its height, in [vh]. *)
Definition layer_height_vh : Q := 700.

Definition offset_vh (percent : Q) : Q :=
  (percent / 100 * layer_height_vh)%Q.

(** ** The rendered ripples *)

(** What [ripples.map] hands to [AnimatePresence] for one record (lines
    115-131): the React [key] and the box of the [motion.div], in pixels. *)
Module RippleView.
Record t : Type := mk { key : Z; top : Z; left : Z; width : Z; height : Z }.
End RippleView.

Definition render_ripple (r : Ripple.t) : RippleView.t :=
  RippleView.mk (Ripple.id r) (Ripple.y r - 50) (Ripple.x r - 50) 100 100.

Definition render_ripples (s : State) : list RippleView.t :=
  render_ripple <$> ripples s.

(** ** Order in the collection and in the timer list

    The collection is a subsequence of the records the pending timers were
    set for; the pending timers are listed in order of expiry; and each was
    set at most two seconds ago, for a record stamped at that moment. *)
Definition order_inv (s : State) : Prop :=
  ripples s `sublist_of` (target <$> timers s) ∧
  StronglySorted Z.le (due <$> timers s) ∧
  Forall (λ tm, due tm ≤ clock s + two_seconds ∧
                Ripple.id (target tm) = (due tm - two_seconds) / ticks_per_ms)
         (timers s).

(** Let the pending timers run one after the other, oldest first. *)
Definition drain (s : State) : list Event :=
  replicate (length (timers s)) (timeout 0).

(** ** Rounds of the cursor tracker *)

(** The first position carried by a list of events. *)
Definition first_position (evs : list Event) : option (Z * Z) :=
  head (omap pointer_position evs).

(** What one round (some move events, then an animation frame) writes. *)
Definition round_writes (evs : list Event) : list (string * string) :=
  match first_position evs with
  | Some (x, y) => cursor_writes x y
  | None => []
  end.

(** Rounds played one after the other, each closed by its animation frame. *)
Fixpoint play (rounds : list (list Event)) : list Event :=
  match rounds with
  | [] => []
  | r :: rounds => r ++ animationFrame :: play rounds
  end.

Fixpoint rounds_writes (rounds : list (list Event)) : list (string * string) :=
  match rounds with
  | [] => []
  | r :: rounds => round_writes r ++ rounds_writes rounds
  end.

(** ** The two sides of the state *)

Definition is_ripple_event (ev : Event) : Prop :=
  match ev with
  | click _ | timeout _ | elapse _ => True
  | _ => False
  end.

Definition is_cursor_event (ev : Event) : Prop :=
  match ev with
  | mousemove _ | touchmove _ | touchstart _ | animationFrame => True
  | _ => False
  end.

Definition same_ripple_fields (s t : State) : Prop :=
  clock s = clock t ∧ ripples s = ripples t ∧ timers s = timers t.

Definition same_cursor_fields (s t : State) : Prop :=
  ticking s = ticking t ∧ frames s = frames t ∧
  style s = style t ∧ style_log s = style_log t.

(** The ripple side of [t] with the cursor side of [c]. *)
Definition with_cursor_of (t c : State) : State :=
  mkState (clock t) (ripples t) (timers t)
          (ticking c) (frames c) (style c) (style_log c).

(** ** The cursor effect and its cleanup (lines 9-43) *)

(** The callbacks found on [window]: the two handlers of this component, and
    listeners of other code, which do not touch the component. *)
Inductive Callback : Type :=
| the_handleMouseMove
| the_handleTouchMove
| other_listener (n : nat).

#[global] Instance Callback_eq_dec : EqDecision Callback.
Proof. solve_decision. Defined.

(** An entry of the event listener list of [window]. *)
Record Listener : Type := mkListener {
  l_type : string;
  l_callback : Callback;
  l_capture : bool;
  l_passive : bool
}.

(** The DOM identifies a listener by type, callback and capture flag;
    [passive] plays no part. *)
Definition same_listener (type : string) (cb : Callback) (capture : bool)
    (l : Listener) : bool :=
  bool_decide (l_type l = type ∧ l_callback l = cb ∧ l_capture l = capture).

(** [window.addEventListener(type, cb, { passive })]: capture is false; a
    listener already in the list is not added again. *)
Definition addEventListener (type : string) (cb : Callback) (passive : bool)
    (ls : list Listener) : list Listener :=
  if existsb (same_listener type cb false) ls then ls
  else ls ++ [mkListener type cb false passive].

(** [window.removeEventListener(type, cb)]: capture is false. *)
Fixpoint removeEventListener (type : string) (cb : Callback)
    (ls : list Listener) : list Listener :=
  match ls with
  | [] => []
  | l :: ls =>
      if same_listener type cb false l then ls
      else l :: removeEventListener type cb ls
  end.

(** The component's state together with the listeners of [window]. *)
Record Page : Type := mkPage { component : State; listeners : list Listener }.

Definition exec (m : JS unit) (s : State) : option State :=
  match m s with
  | Ok _ s' => Some s'
  | Throw _ => None
  end.

(** The body of the effect (lines 10-36): [ticking] starts false, the cursor
    is centred, the three listeners are added. *)
Definition cursorEffect (innerWidth innerHeight : N) (p : Page) : option Page :=
  match exec (set_ticking false >>
              setProperty "--cursor-x" (half_px innerWidth) >>
              setProperty "--cursor-y" (half_px innerHeight)) (component p) with
  | Some a =>
      Some (mkPage a
              (addEventListener "touchstart" the_handleTouchMove true
                 (addEventListener "touchmove" the_handleTouchMove true
                    (addEventListener "mousemove" the_handleMouseMove true
                       (listeners p)))))
  | None => None
  end.

(** The function the effect returns (lines 38-42). *)
Definition cursorEffect_cleanup (p : Page) : Page :=
  mkPage (component p)
    (removeEventListener "touchstart" the_handleTouchMove
       (removeEventListener "touchmove" the_handleTouchMove
          (removeEventListener "mousemove" the_handleMouseMove
             (listeners p)))).

(** The type under which [window] dispatches an event. *)
Definition event_type (ev : Event) : option string :=
  match ev with
  | mousemove _ => Some "mousemove"
  | touchmove _ => Some "touchmove"
  | touchstart _ => Some "touchstart"
  | _ => None
  end.

(** Calling a listener with an event.  A handler of this component takes the
    kind of event it is typed for; a handler given another kind is outside
    the model. *)
Definition invoke (cb : Callback) (ev : Event) : option (JS unit) :=
  match cb, ev with
  | the_handleMouseMove, mousemove e => Some (handleMouseMove e)
  | the_handleTouchMove, touchmove e => Some (handleTouchMove e)
  | the_handleTouchMove, touchstart e => Some (handleTouchMove e)
  | other_listener _, _ => Some (ret tt)
  | _, _ => None
  end.

Fixpoint call_listeners (ls : list Listener) (ev : Event) (s : State)
    : option State :=
  match ls with
  | [] => Some s
  | l :: ls =>
      match invoke (l_callback l) ev with
      | Some m =>
          match exec m s with
          | Some s' => call_listeners ls ev s'
          | None => None
          end
      | None => None
      end
  end.

(** [window] dispatches an event to the listeners of its type, in the order
    they were added. *)
Definition deliver (ev : Event) (p : Page) : option Page :=
  match event_type ev with
  | Some type =>
      match call_listeners (filter (λ l, l_type l = type) (listeners p))
                           ev (component p) with
      | Some s' => Some (mkPage s' (listeners p))
      | None => None
      end
  | None => None
  end.

Definition foreign (l : Listener) : Prop :=
  ∃ n, l_callback l = other_listener n.

(** * Properties *)

(** ** The model at work on small inputs *)

Example px_negative : px (-12) = "-12px".
Proof. reflexivity. Qed.

Example half_px_odd : half_px 767 = "383.5px".
Proof. reflexivity. Qed.

Example mount_centres_cursor :
  style (mount 0 1024 767) !! "--cursor-x" = Some "512px" ∧
  style (mount 0 1024 767) !! "--cursor-y" = Some "383.5px".
Proof. split; reflexivity. Qed.

Example click_then_timer :
  ripples <$> run mounted [click (MouseEvent.mk 300 200); elapse two_seconds;
                           timeout 0] = Some [].
Proof. reflexivity. Qed.

(** A timer cannot run before it is due. *)
Example timer_not_before_due :
  run mounted [click (MouseEvent.mk 300 200); elapse 1999999; timeout 0] = None.
Proof. reflexivity. Qed.

Example touch_without_touches :
  step mounted (touchmove (TouchEvent.mk [])) = Some mounted.
Proof. reflexivity. Qed.

Example two_moves_one_frame :
  style_log <$> run mounted [mousemove (MouseEvent.mk 10 20);
                             mousemove (MouseEvent.mk 90 100); animationFrame]
  = Some [("--cursor-x", "512px"); ("--cursor-y", "384px");
          ("--cursor-x", "10px"); ("--cursor-y", "20px")].
Proof. reflexivity. Qed.

(** ** What one step does to the ripple side of the state *)

Lemma handleWaterClick_eq s e :
  handleWaterClick e s =
  Ok tt (mkState (clock s) (ripples s ++ [ripple_at s e])
                 (timers s ++ [timer_of (clock s) (ripple_at s e)])
                 (ticking s) (frames s) (style s) (style_log s)).
Proof. reflexivity. Qed.

Lemma updateCursor_eq x y s :
  updateCursor x y s =
  if ticking s then Ok tt s
  else Ok tt (mkState (clock s) (ripples s) (timers s) true
                      (frames s ++ [writeCursor x y]) (style s) (style_log s)).
Proof. unfold updateCursor, bind, get_ticking. by destruct (ticking s). Qed.

Lemma handleTouchMove_eq e s :
  handleTouchMove e s =
  match TouchEvent.touches e with
  | [] => Ok tt s
  | t :: _ => updateCursor (Touch.clientX t) (Touch.clientY t) s
  end.
Proof. destruct e as [[|t ts]]; reflexivity. Qed.

Lemma run_frame_callback_eq cb s :
  run_frame_callback cb s =
  match cb with
  | writeCursor x y =>
      Ok tt (mkState (clock s) (ripples s) (timers s) false (frames s)
               (<["--cursor-y" := px y]> (<["--cursor-x" := px x]> (style s)))
               (style_log s ++ [("--cursor-x", px x); ("--cursor-y", px y)]))
  end.
Proof.
  destruct cb as [x y]. unfold run_frame_callback, bind, setProperty, set_ticking.
  simpl. by rewrite <- app_assoc.
Qed.

Lemma run_frame_callbacks_ripple_side cbs s :
  ∃ s', run_frame_callbacks cbs s = Ok tt s' ∧
        clock s' = clock s ∧ ripples s' = ripples s ∧ timers s' = timers s ∧
        frames s' = frames s.
Proof.
  revert s. induction cbs as [|cb cbs IH]; intros s; simpl.
  - by exists s.
  - unfold bind. rewrite run_frame_callback_eq. destruct cb as [x y].
    destruct (IH (mkState (clock s) (ripples s) (timers s) false (frames s)
               (<["--cursor-y" := px y]> (<["--cursor-x" := px x]> (style s)))
               (style_log s ++ [("--cursor-x", px x); ("--cursor-y", px y)])))
      as (s' & -> & ? & ? & ? & ?).
    by exists s'.
Qed.

Lemma step_ripple_side s ev s' :
  step s ev = Some s' → ripple_step s ev s'.
Proof.
  unfold step. destruct ev as [e|e|e|e|k| |d]; cbn [ready dispatch].
  - rewrite handleWaterClick_eq. intros [= <-]. done.
  - unfold handleMouseMove. rewrite updateCursor_eq.
    destruct (ticking s); intros [= <-]; done.
  - rewrite handleTouchMove_eq. destruct (TouchEvent.touches e); [by intros [= <-]|].
    rewrite updateCursor_eq. destruct (ticking s); intros [= <-]; done.
  - rewrite handleTouchMove_eq. destruct (TouchEvent.touches e); [by intros [= <-]|].
    rewrite updateCursor_eq. destruct (ticking s); intros [= <-]; done.
  - unfold run_timer. destruct (timers s !! k) as [tm|] eqn:Hk; [|done].
    case_bool_decide; [|done].
    destruct tm as [d [nr]]. simpl. intros [= <-]. by exists (mkTimer d (removeRipple nr)).
  - unfold run_animation_frame.
    destruct (run_frame_callbacks_ripple_side (frames s)
      (mkState (clock s) (ripples s) (timers s) (ticking s) [] (style s) (style_log s)))
      as (s1 & -> & ? & ? & ? & ?).
    intros [= <-]. done.
  - case_bool_decide; [|done]. intros [= <-]. done.
Qed.

(** ** Lists and the clock *)

(** Deleting one position of a list keeps every element that differs from the
    deleted one. *)
Lemma elem_of_delete_other {A} (l : list A) (k : nat) (a b : A) :
  l !! k = Some b → a ≠ b → a ∈ l → a ∈ delete k l.
Proof.
  revert k. induction l as [|c l IH]; intros k Hk Hne Hin; [by destruct k|].
  destruct k as [|k]; simpl in *.
  - injection Hk as ->. apply elem_of_cons in Hin as [->|Hin]; done.
  - apply elem_of_cons in Hin as [->|Hin]; [left|right; eauto].
Qed.

Lemma Date_now_mono (t c : Z) : t ≤ c → t / ticks_per_ms ≤ c / ticks_per_ms.
Proof. intros. apply Z.div_le_mono; [done | lia]. Qed.

(** Two seconds later, [Date.now()] has advanced by at least 2000. *)
Lemma Date_now_two_seconds (t c : Z) :
  t + two_seconds ≤ c → t / ticks_per_ms + 2000 ≤ c / ticks_per_ms.
Proof.
  intros H. apply Date_now_mono in H.
  unfold two_seconds, ms in H. by rewrite Z.div_add in H.
Qed.

Lemma birth_inv_mount t0 w h : birth_inv [] (mount t0 w h).
Proof. split; [intros r Hr | intros t r Hb]; by apply elem_of_nil in Hr || apply elem_of_nil in Hb. Qed.

Lemma birth_inv_step bs s ev s' :
  birth_inv bs s → step s ev = Some s' → birth_inv (bs ++ born s ev) s'.
Proof.
  intros [Hall Hb] Hstep. apply step_ripple_side in Hstep. unfold birth_inv.
  destruct ev as [e|e|e|e|k| |d]; cbn [ripple_step born] in *;
    rewrite ?app_nil_r.
  - (* click *)
    destruct Hstep as (Hc & Hr & Ht). rewrite Hc, Hr, Ht. split.
    + intros r [Hin|Hin%list_elem_of_singleton]%elem_of_app.
      * destruct (Hall r Hin) as [t ?]. exists t. apply elem_of_app. by left.
      * subst. exists (clock s). apply elem_of_app. right. by left.
    + intros t r [Hin|Hin%list_elem_of_singleton]%elem_of_app.
      * destruct (Hb t r Hin) as (Hle & Hid & Hpend & Hlive).
        split_and!; [done | done | | ].
        -- destruct Hpend; [left; apply elem_of_app; by left | by right].
        -- intros [Hold|Hnew%list_elem_of_singleton]%elem_of_app;
             apply elem_of_app; left; [by apply Hlive|].
           destruct Hpend as [?|Hexp]; [done|]. exfalso.
           apply Date_now_two_seconds in Hexp.
           rewrite <- Hid, Hnew in Hexp. simpl in Hexp. lia.
      * injection Hin as -> ->. split_and!; [lia | done | | ].
        -- left. apply elem_of_app. right. by left.
        -- intros _. apply elem_of_app. right. by left.
  - by same_ripple_side Hstep.
  - by same_ripple_side Hstep.
  - by same_ripple_side Hstep.
  - (* timeout *)
    destruct Hstep as (tm & Hk & Hdue & Hc & Hr & Ht). rewrite Hc, Hr, Ht. split.
    + intros r [_ Hin]%list_elem_of_filter. by apply Hall.
    + intros t r Hin. destruct (Hb t r Hin) as (Hle & Hid & Hpend & Hlive).
      split_and!; [done | done | | ].
      * destruct (decide (timer_of t r = tm)) as [<-|Hne]; [by right|].
        destruct Hpend; [left|by right]. by eapply elem_of_delete_other.
      * intros [Hid' Hin']%list_elem_of_filter.
        eapply elem_of_delete_other; [done| |by apply Hlive].
        intros <-. by apply Hid'.
  - by same_ripple_side Hstep.
  - (* elapse *)
    destruct Hstep as (Hd & Hc & Hr & Ht). rewrite Hc, Hr, Ht. split; [done|].
    intros t r Hin. destruct (Hb t r Hin) as (Hle & Hid & Hpend & Hlive).
    split_and!; [lia | done | | done].
    destruct Hpend; [by left | right; lia].
Qed.

Lemma birth_inv_run evs : ∀ bs s s',
  birth_inv bs s → run s evs = Some s' → birth_inv (bs ++ births s evs) s'.
Proof.
  induction evs as [|ev evs IH]; intros bs s s' Hinv Hrun; simpl in *.
  - injection Hrun as <-. by rewrite app_nil_r.
  - destruct (step s ev) as [s1|] eqn:Hstep; [|done].
    rewrite app_assoc. eapply IH; [|done]. by eapply birth_inv_step.
Qed.

Lemma birth_inv_reachable t0 w h evs s :
  run (mount t0 w h) evs = Some s → birth_inv (births (mount t0 w h) evs) s.
Proof.
  intros Hrun. apply (birth_inv_run evs [] _ _ (birth_inv_mount t0 w h) Hrun).
Qed.

Lemma run_app evs1 : ∀ evs2 s,
  run s (evs1 ++ evs2) =
  match run s evs1 with
  | Some s1 => run s1 evs2
  | None => None
  end.
Proof.
  induction evs1 as [|ev evs1 IH]; intros evs2 s; simpl; [done|].
  destruct (step s ev); [apply IH | done].
Qed.

(** Time never goes backwards in a run. *)
Lemma clock_step s ev s' : step s ev = Some s' → clock s ≤ clock s'.
Proof.
  intros H%step_ripple_side. destruct ev; cbn [ripple_step] in H;
    try (destruct H as (-> & _); lia).
  - destruct H as (tm & _ & _ & -> & _). lia.
  - destruct H as (? & -> & _). lia.
Qed.

Lemma clock_run evs : ∀ s s', run s evs = Some s' → clock s ≤ clock s'.
Proof.
  induction evs as [|ev evs IH]; intros s s' Hrun; simpl in *.
  - injection Hrun as <-. lia.
  - destruct (step s ev) as [s1|] eqn:Hstep; [|done].
    apply clock_step in Hstep. apply IH in Hrun. lia.
Qed.

(** Once [Date.now()] has passed [i] and no record carries the identifier
    [i], none ever will. *)
Lemma id_gone_step i s ev s' :
  step s ev = Some s' →
  i < clock s / ticks_per_ms →
  (∀ r, r ∈ ripples s → Ripple.id r ≠ i) →
  ∀ r, r ∈ ripples s' → Ripple.id r ≠ i.
Proof.
  intros H%step_ripple_side Hi Hno. destruct ev; cbn [ripple_step] in H;
    try (destruct H as (_ & -> & _); exact Hno).
  - destruct H as (_ & -> & _).
    intros r [?|Hr%list_elem_of_singleton]%elem_of_app; [by apply Hno|].
    subst r. simpl. lia.
  - destruct H as (tm & _ & _ & _ & -> & _).
    intros r [_ ?]%list_elem_of_filter. by apply Hno.
  - destruct H as (_ & _ & -> & _). exact Hno.
Qed.

Lemma id_gone_run i evs : ∀ s s',
  run s evs = Some s' →
  i < clock s / ticks_per_ms →
  (∀ r, r ∈ ripples s → Ripple.id r ≠ i) →
  ∀ r, r ∈ ripples s' → Ripple.id r ≠ i.
Proof.
  induction evs as [|ev evs IH]; intros s s' Hrun Hi Hno; simpl in *.
  - by injection Hrun as <-.
  - destruct (step s ev) as [s1|] eqn:Hstep; [|done].
    eapply (IH s1); [done| |by eapply id_gone_step].
    apply clock_step, Date_now_mono in Hstep. lia.
Qed.

(** ** The ripple collection *)

(** C1. Handling a click appends exactly one record to the collection: its
    identifier is [Date.now()] and its coordinates are the event's [clientX]
    and [clientY]; the collection grows by one and every record already in
    it stays where it was, unchanged. *)
Theorem click_appends_one_ripple (s : State) (e : MouseEvent.t) :
  ∃ s', handleWaterClick e s = Ok tt s' ∧
        ripples s' =
          ripples s ++ [Ripple.mk (clock s / ticks_per_ms)
                                  (MouseEvent.clientX e) (MouseEvent.clientY e)] ∧
        length (ripples s') = S (length (ripples s)) ∧
        ∀ i r, ripples s !! i = Some r → ripples s' !! i = Some r.
Proof.
  eexists. split; [apply handleWaterClick_eq|]. simpl. split_and!.
  - done.
  - rewrite length_app. simpl. lia.
  - intros i r Hi. by apply lookup_app_l_Some.
Qed.

(** C2, as stated, fails: two seconds to the microsecond after a click, its
    record is still in the collection, because the expired timer has yet to
    be run. *)
Lemma ripple_present_after_two_seconds :
  step mounted (click (MouseEvent.mk 300 200)) =
    Some (after mounted [click (MouseEvent.mk 300 200)]) ∧
  run (after mounted [click (MouseEvent.mk 300 200)]) [elapse two_seconds] =
    Some (after mounted [click (MouseEvent.mk 300 200); elapse two_seconds]) ∧
  clock (after mounted [click (MouseEvent.mk 300 200); elapse two_seconds]) =
    clock mounted + two_seconds ∧
  ripple_at mounted (MouseEvent.mk 300 200)
    ∈ ripples (after mounted [click (MouseEvent.mk 300 200); elapse two_seconds]).
Proof.
  split_and!; [by vm_compute | by vm_compute | by vm_compute |].
  vm_compute. apply list_elem_of_here.
Qed.

(** C2, amended. A click sets, for the record it creates, a timer due two
    seconds after the creation.  While pending, that timer cannot run before
    it is due and can run at any moment from then on.  Running it takes no
    time; once it has run, at least two seconds have passed since the click
    (exactly two seconds if it ran the moment it was due), and from that
    state on no record with the identifier of the click's record is in the
    collection. *)
Theorem ripple_removed_by_its_timer
    (s : State) (e : MouseEvent.t) (s1 : State)
    (evs : list Event) (s2 : State) (k : nat) :
  step s (click e) = Some s1 →
  run s1 evs = Some s2 →
  timers s2 !! k = Some (timer_of (clock s) (ripple_at s e)) →
  timers s1 = timers s ++ [timer_of (clock s) (ripple_at s e)] ∧
  due (timer_of (clock s) (ripple_at s e)) = clock s + ms 2000 ∧
  (is_Some (step s2 (timeout k)) ↔ clock s + two_seconds ≤ clock s2) ∧
  ∀ s3, step s2 (timeout k) = Some s3 →
    clock s3 = clock s2 ∧
    clock s + two_seconds ≤ clock s3 ∧
    ∀ evs' s4, run s3 evs' = Some s4 →
      ∀ r, r ∈ ripples s4 → Ripple.id r ≠ Ripple.id (ripple_at s e).
Proof.
  intros Hclick Hrun Hk. split_and!.
  - by apply step_ripple_side in Hclick as (_ & _ & ?).
  - done.
  - unfold step. cbn [ready dispatch]. rewrite Hk. cbn [due timer_of].
    unfold run_timer. rewrite Hk. simpl.
    case_bool_decide; split; intros H'; try done.
  - intros s3 Hfire. apply step_ripple_side in Hfire as Hside.
    destruct Hside as (tm & Hk' & Hdue & Hc & Hr & _).
    rewrite Hk in Hk'. injection Hk' as <-. cbn [due timer_of] in Hdue.
    split_and!; [done | lia |]. intros evs' s4 Hrun'.
    eapply id_gone_run; [done| |].
    + rewrite Hc. apply Date_now_two_seconds in Hdue. simpl. lia.
    + rewrite Hr. intros r [Hne _]%list_elem_of_filter. done.
Qed.

(** The theorem at work: a click, two seconds, the timer; whatever comes
    next, identifier 0 is gone. *)
Lemma ripple_removed_by_its_timer_witness :
  clock mounted + two_seconds
    ≤ clock (after mounted [click (MouseEvent.mk 300 200);
                            elapse two_seconds; timeout 0]) ∧
  Forall (λ r, Ripple.id r ≠ Ripple.id (ripple_at mounted (MouseEvent.mk 300 200)))
    (ripples (after mounted [click (MouseEvent.mk 300 200);
                             elapse two_seconds; timeout 0;
                             elapse 5; click (MouseEvent.mk 310 220)])).
Proof.
  pose proof (ripple_removed_by_its_timer mounted (MouseEvent.mk 300 200)
    (after mounted [click (MouseEvent.mk 300 200)]) [elapse two_seconds]
    (after mounted [click (MouseEvent.mk 300 200); elapse two_seconds]) 0%nat
    eq_refl eq_refl eq_refl) as (_ & _ & _ & H).
  destruct (H (after mounted [click (MouseEvent.mk 300 200); elapse two_seconds;
                              timeout 0]) eq_refl) as (_ & Hclock & Hgone).
  split; [exact Hclock|]. apply Forall_forall.
  apply (Hgone [elapse 5; click (MouseEvent.mk 310 220)]). reflexivity.
Defined.

(** C3, as stated, fails: a click arrives just as the timer of an earlier
    record expires and is handled before that timer runs.  In the state that
    results the earlier record is in the collection, two full seconds after
    its creation. *)
Lemma old_ripple_in_collection :
  run mounted [click (MouseEvent.mk 300 200); elapse two_seconds;
               click (MouseEvent.mk 310 220)] =
    Some (after mounted [click (MouseEvent.mk 300 200); elapse two_seconds;
                         click (MouseEvent.mk 310 220)]) ∧
  (0, Ripple.mk 0 300 200)
    ∈ births mounted [click (MouseEvent.mk 300 200); elapse two_seconds;
                      click (MouseEvent.mk 310 220)] ∧
  Ripple.mk 0 300 200
    ∈ ripples (after mounted [click (MouseEvent.mk 300 200); elapse two_seconds;
                              click (MouseEvent.mk 310 220)]) ∧
  ¬ clock (after mounted [click (MouseEvent.mk 300 200); elapse two_seconds;
                          click (MouseEvent.mk 310 220)]) - 0 < two_seconds.
Proof.
  split_and!.
  - by vm_compute.
  - vm_compute. apply list_elem_of_here.
  - vm_compute. apply list_elem_of_here.
  - vm_compute. discriminate.
Qed.

(** C3, amended. In every state the event loop can reach, each record of the
    collection was created by a click of the run and the timer that click
    set for it is still pending.  Hence a record is two seconds old or older
    only while an expired timer waits to be run: in every reachable state
    where no pending timer is overdue, every record of the collection was
    created less than two seconds ago. *)
Theorem ripples_young_unless_timer_overdue
    (t0 : Z) (w h : N) (evs : list Event) (s : State) :
  run (mount t0 w h) evs = Some s →
  (∀ r, r ∈ ripples s → ∃ t, (t, r) ∈ births (mount t0 w h) evs) ∧
  (∀ t r, (t, r) ∈ births (mount t0 w h) evs → r ∈ ripples s →
          timer_of t r ∈ timers s) ∧
  (no_timer_overdue s →
   ∀ t r, (t, r) ∈ births (mount t0 w h) evs → r ∈ ripples s →
          clock s - t < two_seconds).
Proof.
  intros Hrun. destruct (birth_inv_reachable _ _ _ _ _ Hrun) as [Hall Hb].
  split_and!; [done | |].
  - intros t r Hin. by apply (Hb t r Hin).
  - intros Hno t r Hin Hr.
    destruct (Hb t r Hin) as (_ & _ & _ & Hlive).
    specialize (Hno _ (Hlive Hr)). cbn [due timer_of] in Hno. lia.
Qed.

(** The theorem at work: a second click one microsecond before the first
    timer is due. *)
Lemma ripples_young_unless_timer_overdue_witness :
  no_timer_overdue
    (after mounted [click (MouseEvent.mk 300 200); elapse 1999999;
                    click (MouseEvent.mk 310 220)]) ∧
  Forall (λ b, b.2 ∈ ripples (after mounted [click (MouseEvent.mk 300 200);
                                             elapse 1999999;
                                             click (MouseEvent.mk 310 220)]) →
               clock (after mounted [click (MouseEvent.mk 300 200);
                                     elapse 1999999;
                                     click (MouseEvent.mk 310 220)]) - b.1
                 < two_seconds)
    (births mounted [click (MouseEvent.mk 300 200); elapse 1999999;
                     click (MouseEvent.mk 310 220)]).
Proof.
  assert (no_timer_overdue
            (after mounted [click (MouseEvent.mk 300 200); elapse 1999999;
                            click (MouseEvent.mk 310 220)])) as Hno.
  { unfold no_timer_overdue. apply Forall_forall. vm_compute. repeat constructor. }
  split; [exact Hno|]. apply Forall_forall. intros [t r].
  apply (ripples_young_unless_timer_overdue 0 1024 768
           [click (MouseEvent.mk 300 200); elapse 1999999;
            click (MouseEvent.mk 310 220)]
           (after mounted [click (MouseEvent.mk 300 200); elapse 1999999;
                           click (MouseEvent.mk 310 220)]) eq_refl).
  exact Hno.
Defined.

(** C4. No step of the event loop changes a record.  A step leaves the
    collection as it is, or appends the record of the click it handles, or
    (running a timer) keeps exactly the records whose identifier differs
    from that of the timer's record, in their order.  So every record of the
    collection after the step is a record that was in it before, with the
    same [id], [x] and [y], or is the one just created. *)
Theorem ripples_never_mutated (s : State) (ev : Event) (s' : State) :
  step s ev = Some s' →
  (ripples s' = ripples s ∨
   (∃ e, ev = click e ∧ ripples s' = ripples s ++ [ripple_at s e]) ∨
   (∃ k tm, ev = timeout k ∧ timers s !! k = Some tm ∧
            ripples s' =
              filter (λ r, Ripple.id r ≠ Ripple.id (target tm)) (ripples s))) ∧
  ∀ r, r ∈ ripples s' →
       r ∈ ripples s ∨ ∃ e, ev = click e ∧ r = ripple_at s e.
Proof.
  intros H%step_ripple_side. destruct ev as [e|e|e|e|k| |d]; cbn [ripple_step] in H;
    try (destruct H as (_ & -> & _); split; [by left | by left]).
  - destruct H as (_ & -> & _). split; [right; left; by exists e|].
    intros r [?|Hr%list_elem_of_singleton]%elem_of_app; [by left|].
    right. by exists e.
  - destruct H as (tm & Hk & _ & _ & -> & _). split.
    + right; right. by exists k, tm.
    + intros r [_ ?]%list_elem_of_filter. by left.
  - destruct H as (_ & _ & -> & _). split; by left.
Qed.

(** The theorem at work: a second click after a first. *)
Lemma ripples_never_mutated_witness :
  step (after mounted [click (MouseEvent.mk 300 200)]) (click (MouseEvent.mk 310 220)) =
    Some (after mounted [click (MouseEvent.mk 300 200); click (MouseEvent.mk 310 220)]) ∧
  Forall (λ r, r ∈ ripples (after mounted [click (MouseEvent.mk 300 200)]) ∨
               ∃ e, click (MouseEvent.mk 310 220) = click e ∧
                    r = ripple_at (after mounted [click (MouseEvent.mk 300 200)]) e)
    (ripples (after mounted [click (MouseEvent.mk 300 200);
                             click (MouseEvent.mk 310 220)])).
Proof.
  split; [reflexivity|]. apply Forall_forall.
  apply (ripples_never_mutated (after mounted [click (MouseEvent.mk 300 200)])
           (click (MouseEvent.mk 310 220))
           (after mounted [click (MouseEvent.mk 300 200); click (MouseEvent.mk 310 220)])).
  reflexivity.
Defined.

(** ** The cursor tracker *)

Lemma outcome_unit_eq (o : outcome unit) (s' : State) :
  match o with Ok _ s1 => Some s1 | Throw _ => None end = Some s' →
  o = Ok tt s'.
Proof. destruct o as [[] s1|]; [by intros [= ->] | done]. Qed.

Lemma step_cursor_side s ev s' :
  step s ev = Some s' → cursor_step s ev s'.
Proof.
  unfold step. destruct ev as [e|e|e|e|k| |d]; cbn [ready dispatch cursor_step].
  - rewrite handleWaterClick_eq. intros [= <-]. done.
  - apply outcome_unit_eq.
  - cbn [pointer_position]. rewrite handleTouchMove_eq.
    destruct (TouchEvent.touches e); [by intros [= <-] | apply outcome_unit_eq].
  - cbn [pointer_position]. rewrite handleTouchMove_eq.
    destruct (TouchEvent.touches e); [by intros [= <-] | apply outcome_unit_eq].
  - unfold run_timer. destruct (timers s !! k) as [[d [nr]]|]; [|done].
    case_bool_decide; [|done]. intros [= <-]. done.
  - apply outcome_unit_eq.
  - case_bool_decide; [|done]. intros [= <-]. done.
Qed.

(** While an update is queued, [updateCursor] does nothing at all. *)
Lemma updateCursor_ticking x y s :
  ticking s = true → updateCursor x y s = Ok tt s.
Proof. intros H. by rewrite updateCursor_eq, H. Qed.

Lemma run_animation_frame_idle s :
  frames s = [] → run_animation_frame s = Ok tt s.
Proof. destruct s. simpl. by intros ->. Qed.

Lemma run_animation_frame_one s x y :
  frames s = [writeCursor x y] →
  run_animation_frame s =
  Ok tt (mkState (clock s) (ripples s) (timers s) false []
           (<["--cursor-y" := px y]> (<["--cursor-x" := px x]> (style s)))
           (style_log s ++ cursor_writes x y)).
Proof.
  intros H. unfold run_animation_frame. rewrite H.
  cbn [run_frame_callbacks]. unfold bind. by rewrite run_frame_callback_eq.
Qed.

Lemma cursor_inv_mount t0 w h : cursor_inv (mount t0 w h).
Proof. by left. Qed.

Lemma cursor_inv_step s ev s' :
  cursor_inv s → step s ev = Some s' → cursor_inv s'.
Proof.
  intros Hinv H%step_cursor_side.
  assert (∀ x y, updateCursor x y s = Ok tt s' → cursor_inv s') as Hupd.
  { intros x y. rewrite updateCursor_eq.
    destruct Hinv as [[Ht Hf]|[Ht Hf]]; rewrite Ht; intros [= <-].
    - right. split; [done|]. exists x, y. simpl. by rewrite Hf.
    - by right. }
  destruct ev as [e|e|e|e|k| |d]; cbn [cursor_step] in H;
    try (destruct H as (Ht & Hf & _); unfold cursor_inv; by rewrite Ht, Hf);
    try (destruct (pointer_position _) as [[x y]|]; [by eapply Hupd | by subst]).
  destruct Hinv as [[Ht Hf]|[Ht (x & y & Hf)]].
  - rewrite (run_animation_frame_idle _ Hf) in H. injection H as <-. by left.
  - rewrite (run_animation_frame_one _ _ _ Hf) in H. injection H as <-. by left.
Qed.

Lemma cursor_inv_run evs : ∀ s s',
  cursor_inv s → run s evs = Some s' → cursor_inv s'.
Proof.
  induction evs as [|ev evs IH]; intros s s' Hinv Hrun; simpl in *.
  - by injection Hrun as <-.
  - destruct (step s ev) as [s1|] eqn:Hstep; [|done].
    eapply IH; [|done]. by eapply cursor_inv_step.
Qed.

Lemma cursor_inv_reachable s : reachable s → cursor_inv s.
Proof.
  intros (t0 & w & h & evs & Hrun).
  eapply cursor_inv_run; [apply cursor_inv_mount | done].
Qed.

Lemma step_move_position s ev x y :
  pointer_position ev = Some (x, y) →
  step s ev = match updateCursor x y s with
              | Ok _ s' => Some s'
              | Throw _ => None
              end.
Proof.
  unfold step. destruct ev as [e|e|e|e|k| |d]; cbn [pointer_position ready dispatch];
    try done.
  - by intros [= <- <-].
  - rewrite handleTouchMove_eq. destruct (TouchEvent.touches e); [done|].
    by intros [= <- <-].
  - rewrite handleTouchMove_eq. destruct (TouchEvent.touches e); [done|].
    by intros [= <- <-].
Qed.

(** A move event that arrives while an update is queued changes nothing. *)
Lemma step_move_ticking s ev :
  is_move ev → ticking s = true → step s ev = Some s.
Proof.
  intros Hmove Ht.
  destruct (pointer_position ev) as [[x y]|] eqn:Hpos.
  - by rewrite (step_move_position _ _ _ _ Hpos), updateCursor_ticking.
  - unfold step. destruct ev as [e|e|e|e|k| |d]; try done;
      cbn [pointer_position ready dispatch] in *;
      rewrite handleTouchMove_eq; by destruct (TouchEvent.touches e).
Qed.

Lemma run_moves_ticking s evs :
  Forall is_move evs → ticking s = true → run s evs = Some s.
Proof.
  intros Hall Ht. induction Hall as [|ev evs Hmove _ IH]; simpl; [done|].
  by rewrite step_move_ticking.
Qed.

Lemma between_frames_step s ev s' :
  cursor_inv s → ev ≠ animationFrame → step s ev = Some s' →
  at_most_one_queued s s' ∧ style_log s' = style_log s.
Proof.
  intros Hinv Hne H%step_cursor_side.
  assert (∀ x y, updateCursor x y s = Ok tt s' →
                 at_most_one_queued s s' ∧ style_log s' = style_log s) as Hupd.
  { intros x y. rewrite updateCursor_eq.
    destruct Hinv as [[Ht Hf]|[Ht Hf]]; rewrite Ht; intros [= <-].
    - split; [right|done]. split; [done|]. exists x, y. simpl. by rewrite Hf.
    - split; [by left|done]. }
  destruct ev as [e|e|e|e|k| |d]; cbn [cursor_step] in H; try done;
    try (destruct H as (_ & Hf & _ & Hl); split; [by left | done]);
    try (destruct (pointer_position _) as [[x y]|];
           [by eapply Hupd | subst; split; [by left | done]]).
Qed.

Lemma between_frames_run evs : ∀ s s',
  cursor_inv s → animationFrame ∉ evs → run s evs = Some s' →
  at_most_one_queued s s' ∧ style_log s' = style_log s.
Proof.
  induction evs as [|ev evs IH]; intros s s' Hinv Hno Hrun; simpl in *.
  - injection Hrun as <-. split; [by left | done].
  - destruct (step s ev) as [s1|] eqn:Hstep; [|done].
    apply not_elem_of_cons in Hno as [Hne Hno].
    destruct (between_frames_step _ _ _ Hinv (not_eq_sym Hne) Hstep) as [Hq1 Hl1].
    destruct (IH s1 s' (cursor_inv_step _ _ _ Hinv Hstep) Hno Hrun) as [Hq Hl].
    split; [|congruence].
    destruct Hq1 as [Hsame|[Hempty (x & y & Hone)]].
    + unfold at_most_one_queued. by rewrite <- Hsame.
    + right. split; [done|]. exists x, y.
      destruct Hq as [->|[Hnil _]]; [done | congruence].
Qed.

(** C5. Cursor tracking writes the style variables at most once per
    animation frame.  Take any reachable state and any events that arrive
    before the next animation frame.  They write nothing to the style
    variables, and together they queue at most one callback with
    [requestAnimationFrame], and none if one was already queued.  The next
    animation frame then runs, empties the queue and makes either no write or
    exactly one pair of writes, to [--cursor-x] and [--cursor-y]. *)
Theorem cursor_writes_once_per_frame
    (s : State) (evs : list Event) (s' : State) :
  reachable s →
  animationFrame ∉ evs →
  run s evs = Some s' →
  (frames s' = frames s ∨
   (frames s = [] ∧ ∃ x y, frames s' = [writeCursor x y])) ∧
  (length (frames s') ≤ 1)%nat ∧
  style_log s' = style_log s ∧
  ∃ s'', step s' animationFrame = Some s'' ∧
         frames s'' = [] ∧
         (style_log s'' = style_log s' ∨
          ∃ x y, style_log s'' =
                 style_log s' ++ [("--cursor-x", px x); ("--cursor-y", px y)]).
Proof.
  intros Hreach%cursor_inv_reachable Hno Hrun.
  destruct (between_frames_run _ _ _ Hreach Hno Hrun) as [Hq Hl].
  pose proof (cursor_inv_run _ _ _ Hreach Hrun) as Hinv'.
  split_and!; [exact Hq | | exact Hl |].
  - destruct Hinv' as [[_ ->]|[_ (x & y & ->)]]; simpl; lia.
  - unfold step. cbn [ready dispatch].
    destruct Hinv' as [[_ Hf]|[_ (x & y & Hf)]].
    + rewrite (run_animation_frame_idle _ Hf). exists s'. split_and!; [done | done | by left].
    + rewrite (run_animation_frame_one _ _ _ Hf). eexists. split_and!; [done | done |].
      right. by exists x, y.
Qed.

(** The theorem at work: five events before the first frame. *)
Lemma cursor_writes_once_per_frame_witness :
  (length (frames (after mounted
     [mousemove (MouseEvent.mk 10 20); touchmove (TouchEvent.mk []);
      click (MouseEvent.mk 30 40);
      touchmove (TouchEvent.mk [Touch.mk 50 60; Touch.mk 70 80]);
      mousemove (MouseEvent.mk 90 100)])) ≤ 1)%nat.
Proof.
  refine (proj1 (proj2 (cursor_writes_once_per_frame mounted
     [mousemove (MouseEvent.mk 10 20); touchmove (TouchEvent.mk []);
      click (MouseEvent.mk 30 40);
      touchmove (TouchEvent.mk [Touch.mk 50 60; Touch.mk 70 80]);
      mousemove (MouseEvent.mk 90 100)] _ _ _ _))).
  - exists 0, 1024%N, 768%N, []. reflexivity.
  - intros Hin. repeat (apply elem_of_cons in Hin as [Hin|Hin]; [discriminate|]).
    by apply elem_of_nil in Hin.
  - reflexivity.
Defined.

(** [`${x}px`] tells coordinates apart. *)
Lemma list_ascii_of_append (a b : string) :
  String.list_ascii_of_string (a +:+ b) =
  String.list_ascii_of_string a ++ String.list_ascii_of_string b.
Proof. induction a as [|c a IH]; simpl; [done | by rewrite IH]. Qed.

Lemma px_inj (x x' : Z) : px x = px x' → x = x'.
Proof.
  unfold px. intros H.
  apply (f_equal String.list_ascii_of_string) in H.
  rewrite !list_ascii_of_append in H. apply app_inv_tail in H.
  apply (f_equal String.string_of_list_ascii) in H.
  rewrite !String.string_of_list_ascii_of_string in H.
  by apply pretty_Z_inj in H.
Qed.

(** C9. The throttle keeps the first position and drops the later ones.
    From a reachable state with no update queued, the first move event that
    carries a position queues an update and sets [ticking]; every move event
    that follows before the animation frame leaves the state exactly as it
    is; and the animation frame writes the position of that first event,
    whatever the later events carried. *)
Theorem cursor_keeps_first_position
    (s : State) (first : Event) (x y : Z) (rest : list Event) :
  reachable s →
  ticking s = false →
  pointer_position first = Some (x, y) →
  Forall is_move rest →
  ∃ s1 s3,
    step s first = Some s1 ∧
    ticking s1 = true ∧
    (∀ ev, is_move ev → step s1 ev = Some s1) ∧
    run s (first :: rest) = Some s1 ∧
    run s (first :: rest ++ [animationFrame]) = Some s3 ∧
    style_log s3 = style_log s ++ [("--cursor-x", px x); ("--cursor-y", px y)] ∧
    style s3 !! "--cursor-x" = Some (px x) ∧
    style s3 !! "--cursor-y" = Some (px y) ∧
    ∀ x' y', (x', y') ≠ (x, y) →
      style_log s3 ≠ style_log s ++ [("--cursor-x", px x'); ("--cursor-y", px y')].
Proof.
  intros Hreach%cursor_inv_reachable Ht Hpos Hrest.
  destruct Hreach as [[_ Hf]|[Ht' _]]; [|congruence].
  pose proof (step_move_position s _ _ _ Hpos) as Hstep.
  rewrite updateCursor_eq, Ht in Hstep.
  set (s1 := mkState (clock s) (ripples s) (timers s) true
               (frames s ++ [writeCursor x y]) (style s) (style_log s)) in *.
  assert (run s1 rest = Some s1) as Hdrop by by apply run_moves_ticking.
  assert (frames s1 = [writeCursor x y]) as Hf1 by (simpl; by rewrite Hf).
  eexists s1, _. split_and!.
  - done.
  - done.
  - intros ev Hmove. by apply step_move_ticking.
  - simpl. by rewrite Hstep.
  - rewrite app_comm_cons, run_app. cbn [run]. rewrite Hstep, Hdrop.
    unfold step. cbn [ready dispatch].
    by rewrite (run_animation_frame_one _ _ _ Hf1).
  - done.
  - simpl. by rewrite lookup_insert_ne, lookup_insert_eq.
  - simpl. by rewrite lookup_insert_eq.
  - intros x' y' Hne Heq. simpl in Heq. apply app_inv_head in Heq.
    injection Heq as Hx Hy. apply px_inj in Hx, Hy. congruence.
Qed.

(** The theorem at work: three moves, then a frame. *)
Lemma cursor_keeps_first_position_witness :
  style_log <$> run mounted
    [mousemove (MouseEvent.mk 10 20);
     touchmove (TouchEvent.mk [Touch.mk 50 60]);
     mousemove (MouseEvent.mk 90 100);
     animationFrame]
  = Some (style_log mounted ++ [("--cursor-x", "10px"); ("--cursor-y", "20px")]).
Proof.
  destruct (cursor_keeps_first_position mounted (mousemove (MouseEvent.mk 10 20)) 10 20
              [touchmove (TouchEvent.mk [Touch.mk 50 60]);
               mousemove (MouseEvent.mk 90 100)])
    as (s1 & s3 & _ & _ & _ & _ & Hrun & Hlog & _).
  - exists 0, 1024%N, 768%N, []. reflexivity.
  - reflexivity.
  - reflexivity.
  - repeat constructor.
  - cbn [app] in Hrun. rewrite Hrun. cbn [fmap option_fmap option_map].
    rewrite Hlog. reflexivity.
Defined.

(** C7. No handler can fail.  In every state, [handleWaterClick],
    [handleMouseMove] and [handleTouchMove] return normally on every event,
    and so do the timer and frame callbacks; [handleTouchMove] on an event
    with an empty touch list returns with the state untouched.  Therefore
    every event the loop can deliver is handled without an exception. *)
Theorem handlers_total (s : State) :
  (∀ e, ∃ s', handleWaterClick e s = Ok tt s') ∧
  (∀ e, ∃ s', handleMouseMove e s = Ok tt s') ∧
  (∀ e, ∃ s', handleTouchMove e s = Ok tt s') ∧
  handleTouchMove (TouchEvent.mk []) s = Ok tt s ∧
  (∀ cb, ∃ s', run_timer_callback cb s = Ok tt s') ∧
  (∀ cb, ∃ s', run_frame_callback cb s = Ok tt s') ∧
  (∀ ev, ∃ s', dispatch ev s = Ok tt s') ∧
  (∀ ev, ready s ev = true → is_Some (step s ev)).
Proof.
  assert (∀ x y s0, ∃ s', updateCursor x y s0 = Ok tt s') as Hupd.
  { intros x y s0. rewrite updateCursor_eq. destruct (ticking s0); eauto. }
  assert (∀ e, ∃ s', handleTouchMove e s = Ok tt s') as Htouch.
  { intros e. rewrite handleTouchMove_eq. destruct (TouchEvent.touches e); eauto. }
  assert (∀ ev, ∃ s', dispatch ev s = Ok tt s') as Hdisp.
  { intros [e|e|e|e|k| |d]; cbn [dispatch].
    - rewrite handleWaterClick_eq. eauto.
    - apply Hupd.
    - apply Htouch.
    - apply Htouch.
    - unfold run_timer. destruct (timers s !! k) as [[d [nr]]|]; simpl; eauto.
    - unfold run_animation_frame.
      destruct (run_frame_callbacks_ripple_side (frames s)
        (mkState (clock s) (ripples s) (timers s) (ticking s) [] (style s) (style_log s)))
        as (s' & -> & _). eauto.
    - unfold pass. eauto. }
  split_and!.
  - intros e. rewrite handleWaterClick_eq. eauto.
  - intros e. apply Hupd.
  - exact Htouch.
  - reflexivity.
  - intros [nr]. simpl. unfold setRipples. eauto.
  - intros cb. rewrite run_frame_callback_eq. destruct cb. eauto.
  - exact Hdisp.
  - intros ev Hready. unfold step. rewrite Hready.
    destruct (Hdisp ev) as [s' ->]. eauto.
Qed.

(** ** Timers *)

Lemma timers_step bs fs s ev s' :
  timer_of_birth <$> bs ≡ₚ timers s ++ fs →
  step s ev = Some s' →
  timer_of_birth <$> (bs ++ born s ev) ≡ₚ timers s' ++ (fs ++ run_now s ev).
Proof.
  intros Hinv H%step_ripple_side.
  destruct ev as [e|e|e|e|k| |d]; cbn [ripple_step born run_now] in *;
    rewrite ?app_nil_r;
    try (destruct H as (_ & _ & ->); exact Hinv).
  - destruct H as (_ & _ & ->). rewrite fmap_app, Hinv. cbn.
    rewrite <- !app_assoc. apply Permutation_app_head, Permutation_app_comm.
  - destruct H as (tm & Hk & _ & _ & _ & ->). rewrite Hk. cbn.
    rewrite Hinv, (delete_Permutation _ _ _ Hk) at 1.
    rewrite (Permutation_app_comm fs [tm]). cbn.
    by rewrite Permutation_middle.
  - destruct H as (_ & _ & _ & ->). exact Hinv.
Qed.

Lemma timers_run evs : ∀ bs fs s s',
  timer_of_birth <$> bs ≡ₚ timers s ++ fs →
  run s evs = Some s' →
  timer_of_birth <$> (bs ++ births s evs) ≡ₚ timers s' ++ (fs ++ fired s evs).
Proof.
  induction evs as [|ev evs IH]; intros bs fs s s' Hinv Hrun; simpl in *.
  - injection Hrun as <-. by rewrite !app_nil_r.
  - destruct (step s ev) as [s1|] eqn:Hstep; [|done].
    rewrite (app_assoc bs), (app_assoc fs). eapply IH; [|done].
    by eapply timers_step.
Qed.

(** C6. One timer per ripple, none cancelled.  In a reachable state, a click
    adds exactly one timer to the pending ones: the timer that removes the
    record this click creates, due two seconds later.  A pending timer
    leaves the pending list only by being run.  So the timers set by the
    clicks of a run, one per click, are exactly the timers still pending
    together with the timers that have run. *)
Theorem one_timer_per_ripple
    (t0 : Z) (w h : N) (evs : list Event) (s : State) :
  run (mount t0 w h) evs = Some s →
  (∀ e, ∃ s', step s (click e) = Some s' ∧
              timers s' = timers s ++ [timer_of (clock s) (ripple_at s e)]) ∧
  (∀ ev s', step s ev = Some s' →
     ∀ tm, tm ∈ timers s →
           tm ∈ timers s' ∨ ∃ k, ev = timeout k ∧ timers s !! k = Some tm) ∧
  length (births (mount t0 w h) evs) =
    (length (timers s) + length (fired (mount t0 w h) evs))%nat ∧
  timer_of_birth <$> births (mount t0 w h) evs
    ≡ₚ timers s ++ fired (mount t0 w h) evs.
Proof.
  intros Hrun.
  assert (timer_of_birth <$> births (mount t0 w h) evs
            ≡ₚ timers s ++ fired (mount t0 w h) evs) as Hperm.
  { by apply (timers_run evs [] [] (mount t0 w h) s). }
  split_and!.
  - intros e. unfold step. cbn [ready dispatch]. rewrite handleWaterClick_eq.
    eexists. split; done.
  - intros ev s' H%step_ripple_side tm Hin.
    destruct ev as [e|e|e|e|k| |d]; cbn [ripple_step] in H;
      try (destruct H as (_ & _ & ->); by left).
    + destruct H as (_ & _ & ->). left. apply elem_of_app. by left.
    + destruct H as (tm' & Hk & _ & _ & _ & ->).
      destruct (decide (tm = tm')) as [->|Hne].
      * right. by exists k.
      * left. by eapply elem_of_delete_other.
    + destruct H as (_ & _ & _ & ->). by left.
  - apply Permutation_length in Hperm.
    by rewrite length_fmap, length_app in Hperm.
  - exact Hperm.
Qed.

(** The theorem at work: two clicks, one timer run. *)
Lemma one_timer_per_ripple_witness :
  length (births mounted [click (MouseEvent.mk 300 200); elapse 500;
                          click (MouseEvent.mk 310 220); elapse two_seconds;
                          timeout 0]) =
  (length (timers (after mounted [click (MouseEvent.mk 300 200); elapse 500;
                                  click (MouseEvent.mk 310 220); elapse two_seconds;
                                  timeout 0])) +
   length (fired mounted [click (MouseEvent.mk 300 200); elapse 500;
                          click (MouseEvent.mk 310 220); elapse two_seconds;
                          timeout 0]))%nat.
Proof.
  refine (proj1 (proj2 (proj2 (one_timer_per_ripple 0 1024 768
    [click (MouseEvent.mk 300 200); elapse 500;
     click (MouseEvent.mk 310 220); elapse two_seconds; timeout 0]
    (after mounted [click (MouseEvent.mk 300 200); elapse 500;
                    click (MouseEvent.mk 310 220); elapse two_seconds;
                    timeout 0]) _)))).
  reflexivity.
Defined.

(** A timer set for a record stamped when it was set stays pending until
    it runs, and once it has run its identifier never comes back. *)
Lemma pending_or_gone_step tm s ev s' :
  Ripple.id (target tm) < due tm / ticks_per_ms →
  pending_or_gone tm s → step s ev = Some s' → pending_or_gone tm s'.
Proof.
  intros Hwf [Hpend|[Hpast Hgone]] Hstep.
  - apply step_ripple_side in Hstep.
    destruct ev as [e|e|e|e|k| |d]; cbn [ripple_step] in Hstep;
      try (destruct Hstep as (_ & _ & Ht); left; by rewrite Ht).
    + destruct Hstep as (_ & _ & Ht). left. rewrite Ht. apply elem_of_app. by left.
    + destruct Hstep as (tm' & Hk & Hdue & Hc & Hr & Ht).
      destruct (decide (tm = tm')) as [<-|Hne].
      * right. rewrite Hc, Hr. split.
        -- apply Date_now_mono in Hdue. lia.
        -- by intros r [? _]%list_elem_of_filter.
      * left. rewrite Ht. by eapply elem_of_delete_other.
    + destruct Hstep as (_ & _ & _ & Ht). left. by rewrite Ht.
  - right. split.
    + apply clock_step, Date_now_mono in Hstep. lia.
    + by eapply id_gone_step.
Qed.

Lemma pending_or_gone_run tm evs : ∀ s s',
  Ripple.id (target tm) < due tm / ticks_per_ms →
  pending_or_gone tm s → run s evs = Some s' → pending_or_gone tm s'.
Proof.
  induction evs as [|ev evs IH]; intros s s' Hwf Hinv Hrun; simpl in *.
  - by injection Hrun as <-.
  - destruct (step s ev) as [s1|] eqn:Hstep; [|done].
    eapply IH; [done| |done]. by eapply pending_or_gone_step.
Qed.

(** C8. Identifiers are [Date.now()] and can collide.  Two clicks handled in
    the same millisecond, [d] microseconds apart, create two records with
    the same identifier and set two timers.  As long as a record with that
    identifier is in the collection, both timers are pending; whenever one of
    them runs, its filter leaves no record with the identifier.  So the timer
    that runs first removes both records.  In particular the first click's
    timer can run when it is due: the second record is then gone while its
    own timer is still pending, and, if the clicks were not simultaneous,
    less than two seconds after its creation. *)
Theorem same_millisecond_clicks_collide
    (s : State) (e1 e2 : MouseEvent.t) (d : Z) :
  0 ≤ d →
  (clock s + d) / ticks_per_ms = clock s / ticks_per_ms →
  ∃ s3 r1 r2,
    run s [click e1; elapse d; click e2] = Some s3 ∧
    ripples s3 = ripples s ++ [r1; r2] ∧
    timers s3 =
      timers s ++ [timer_of (clock s) r1; timer_of (clock s + d) r2] ∧
    r1 = Ripple.mk (clock s / ticks_per_ms)
                   (MouseEvent.clientX e1) (MouseEvent.clientY e1) ∧
    r2 = Ripple.mk (clock s / ticks_per_ms)
                   (MouseEvent.clientX e2) (MouseEvent.clientY e2) ∧
    Ripple.id r1 = Ripple.id r2 ∧
    (∀ evs s4,
       run s3 evs = Some s4 →
       (∃ r, r ∈ ripples s4 ∧ Ripple.id r = Ripple.id r1) →
       timer_of (clock s) r1 ∈ timers s4 ∧
       timer_of (clock s + d) r2 ∈ timers s4) ∧
    (∀ evs s4 k tm s5,
       run s3 evs = Some s4 →
       timers s4 !! k = Some tm →
       Ripple.id (target tm) = Ripple.id r1 →
       step s4 (timeout k) = Some s5 →
       clock s5 = clock s4 ∧
       ∀ r, r ∈ ripples s5 → Ripple.id r ≠ Ripple.id r1) ∧
    ∃ s5,
      run s3 [elapse (two_seconds - d); timeout (length (timers s))] = Some s5 ∧
      clock s5 = clock s + two_seconds ∧
      (0 < d → clock s5 < (clock s + d) + two_seconds) ∧
      (∀ r, r ∈ ripples s5 → Ripple.id r ≠ Ripple.id r2) ∧
      timer_of (clock s + d) r2 ∈ timers s5.
Proof.
  intros Hd Hms.
  assert (d < 1000) as Hd'.
  { unfold ticks_per_ms in Hms.
    pose proof (Z.div_mod (clock s) 1000 ltac:(lia)).
    pose proof (Z.div_mod (clock s + d) 1000 ltac:(lia)).
    pose proof (Z.mod_pos_bound (clock s) 1000 ltac:(lia)).
    pose proof (Z.mod_pos_bound (clock s + d) 1000 ltac:(lia)).
    rewrite Hms in *. lia. }
  set (r1 := Ripple.mk (clock s / ticks_per_ms)
               (MouseEvent.clientX e1) (MouseEvent.clientY e1)).
  set (r2 := Ripple.mk (clock s / ticks_per_ms)
               (MouseEvent.clientX e2) (MouseEvent.clientY e2)).
  set (s3 := mkState (clock s + d) (ripples s ++ [r1; r2])
               (timers s ++ [timer_of (clock s) r1; timer_of (clock s + d) r2])
               (ticking s) (frames s) (style s) (style_log s)).
  assert (run s [click e1; elapse d; click e2] = Some s3) as Hrun3.
  { unfold run, step. cbn [ready dispatch]. rewrite handleWaterClick_eq.
    rewrite (bool_decide_true _ Hd). unfold pass.
    rewrite handleWaterClick_eq. unfold ripple_at. cbn [clock ripples timers
      ticking frames style style_log]. rewrite Hms, <- !app_assoc. done. }
  assert (∀ t r, Ripple.id r = t / ticks_per_ms →
                 Ripple.id (target (timer_of t r))
                   < due (timer_of t r) / ticks_per_ms) as Hwf.
  { intros t r Hid. cbn [target callback due timer_of]. rewrite Hid.
    pose proof (Date_now_two_seconds t (t + two_seconds)). lia. }
  exists s3, r1, r2. split_and!; try done.
  - intros evs s4 Hrun (r & Hin & Hr). split.
    + destruct (pending_or_gone_run (timer_of (clock s) r1) evs s3 s4) as [?|[_ Hgone]];
        [by apply Hwf | left | done | done | by destruct (Hgone r Hin)].
      simpl. apply elem_of_app. right. by left.
    + destruct (pending_or_gone_run (timer_of (clock s + d) r2) evs s3 s4)
        as [?|[_ Hgone]];
        [apply Hwf; by rewrite Hms | left | done | done | by destruct (Hgone r Hin)].
      simpl. apply elem_of_app. right. right. by left.
  - intros evs s4 k tm s5 _ Hk Hid H%step_ripple_side.
    destruct H as (tm' & Hk' & _ & Hc & -> & _).
    rewrite Hk in Hk'. injection Hk' as <-. split; [done|].
    intros r [Hne _]%list_elem_of_filter. by rewrite <- Hid.
  - assert (timers s3 !! length (timers s) = Some (timer_of (clock s) r1)) as Hk
      by apply list_lookup_middle, eq_refl.
    eexists. split_and!.
    + unfold run, step. cbn [ready dispatch].
      rewrite bool_decide_true by (unfold two_seconds, ms, ticks_per_ms; lia).
      unfold pass, run_timer. cbn [clock ripples timers ticking frames style style_log].
      fold s3. rewrite Hk. cbn [due timer_of callback].
      rewrite bool_decide_true by (simpl; lia).
      cbn [run_timer_callback]. unfold setRipples. done.
    + simpl. lia.
    + simpl. lia.
    + simpl. intros r [Hne _]%list_elem_of_filter. done.
    + simpl. change (timers s ++ [timer_of (clock s) r1; timer_of (clock s + d) r2])
        with (timers s ++ timer_of (clock s) r1 :: [timer_of (clock s + d) r2]).
      rewrite delete_middle. apply elem_of_app. right. by left.
Qed.

(** The theorem at work: two clicks 400 microseconds apart. *)
Lemma same_millisecond_clicks_collide_witness :
  ∃ s3 r1 r2 s5,
    run mounted [click (MouseEvent.mk 300 200); elapse 400;
                 click (MouseEvent.mk 310 220)] = Some s3 ∧
    ripples s3 = [r1; r2] ∧
    Ripple.id r1 = Ripple.id r2 ∧
    run s3 [elapse (two_seconds - 400); timeout 0] = Some s5 ∧
    clock s5 < (clock mounted + 400) + two_seconds ∧
    ∀ r, r ∈ ripples s5 → Ripple.id r ≠ Ripple.id r2.
Proof.
  destruct (same_millisecond_clicks_collide mounted
              (MouseEvent.mk 300 200) (MouseEvent.mk 310 220) 400)
    as (s3 & r1 & r2 & Hrun3 & Hr & _ & _ & _ & Hid & _ & _ &
        s5 & Hrun5 & _ & Hlt & Hgone & _).
  - lia.
  - reflexivity.
  - exists s3, r1, r2, s5. split_and!; [done | done | done | done | | done].
    apply Hlt. lia.
Defined.

(** ** The scroll translation *)

(** C10. [yTranslate] sends progress 0 to 0% and progress 1 to -85.714%.
    That percentage is -600/7 rounded to three decimals, not -600/7 itself
    (as a fraction of the height, not -6/7): at full scroll the 700vh layer
    is moved by -599.998vh, which is not -600vh. *)
Theorem yTranslate_endpoints :
  (yTranslate 0 == 0)%Q ∧
  (yTranslate 1 == - (85714 # 1000))%Q ∧
  (Qabs (yTranslate 1 - - (600 # 7)) < 1 # 2000)%Q ∧
  ¬ (yTranslate 1 / 100 == - (6 # 7))%Q ∧
  (offset_vh (yTranslate 1) == - (599998 # 1000))%Q ∧
  ¬ (offset_vh (yTranslate 1) == - 600)%Q.
Proof. split_and!; vm_compute; congruence. Qed.


(** * Further properties *)

(** ** Order and size of the collection *)

Lemma StronglySorted_sublist {A} (R : relation A) (l1 l2 : list A) :
  l1 `sublist_of` l2 → StronglySorted R l2 → StronglySorted R l1.
Proof.
  induction 1 as [|a l1 l2 Hsub IH|a l1 l2 Hsub IH]; intros Hs.
  - constructor.
  - apply StronglySorted_inv in Hs as [Hs Hall]. constructor; [by apply IH|].
    eapply Forall_forall. intros b Hb. eapply Forall_forall in Hall; [done|].
    by eapply elem_of_sublist.
  - apply StronglySorted_inv in Hs as [Hs _]. by apply IH.
Qed.

Lemma Forall_sublist_of {A} (P : A → Prop) (l1 l2 : list A) :
  l1 `sublist_of` l2 → Forall P l2 → Forall P l1.
Proof.
  intros Hsub Hall. apply Forall_forall. intros a Ha.
  eapply Forall_forall in Hall; [done|]. by eapply elem_of_sublist.
Qed.

Lemma filter_sublist_mono {A} (P : A → Prop) `{!∀ a, Decision (P a)}
    (l1 l2 : list A) :
  l1 `sublist_of` l2 → filter P l1 `sublist_of` filter P l2.
Proof.
  induction 1 as [|a l1 l2 Hsub IH|a l1 l2 Hsub IH].
  - done.
  - rewrite !filter_cons. destruct (decide (P a)); [by constructor | done].
  - rewrite filter_cons. destruct (decide (P a)); [by constructor | done].
Qed.

Lemma filter_sublist_delete {A} (P : A → Prop) `{!∀ a, Decision (P a)}
    (l : list A) (k : nat) (b : A) :
  l !! k = Some b → ¬ P b → filter P l `sublist_of` delete k l.
Proof.
  revert k. induction l as [|a l IH]; intros k Hk Hb; [by destruct k|].
  destruct k as [|k]; simpl in *.
  - injection Hk as ->. rewrite filter_cons_False by done. apply sublist_filter.
  - rewrite filter_cons. destruct (decide (P a)).
    + constructor. by apply IH.
    + constructor. by apply IH.
Qed.

Lemma order_inv_mount t0 w h : order_inv (mount t0 w h).
Proof. split_and!; simpl; constructor. Qed.

Lemma order_inv_step s ev s' :
  order_inv s → step s ev = Some s' → order_inv s'.
Proof.
  intros (Hsub & Hsorted & Hall) H%step_ripple_side. unfold order_inv.
  destruct ev as [e|e|e|e|k| |d]; cbn [ripple_step] in H;
    try (same_ripple_side H; done).
  - destruct H as (-> & -> & ->). rewrite !fmap_app. split_and!.
    + by apply sublist_app.
    + apply StronglySorted_app_2; [|done|repeat constructor].
      intros d1 d2 (tm & -> & Htm)%list_elem_of_fmap Hd2%list_elem_of_singleton.
      subst d2. eapply Forall_forall in Hall as [? _]; [|done]. simpl. lia.
    + apply Forall_app. split; [done|]. repeat constructor; simpl; [lia|].
      f_equal. lia.
  - destruct H as (tm & Hk & Hdue & -> & -> & ->). split_and!.
    + rewrite list_fmap_delete.
      etrans; [by apply filter_sublist_mono|].
      eapply filter_sublist_delete; [by rewrite list_lookup_fmap, Hk|].
      intros Hne. by apply Hne.
    + rewrite list_fmap_delete.
      eapply StronglySorted_sublist; [apply sublist_delete | done].
    + eapply Forall_sublist_of; [apply sublist_delete | done].
  - destruct H as (Hd & -> & -> & ->). split_and!; [done | done |].
    eapply Forall_impl; [done|]. intros tm [? ?]. split; [lia | done].
Qed.

Lemma order_inv_run evs : ∀ s s',
  order_inv s → run s evs = Some s' → order_inv s'.
Proof.
  induction evs as [|ev evs IH]; intros s s' Hinv Hrun; simpl in *.
  - by injection Hrun as <-.
  - destruct (step s ev) as [s1|] eqn:Hstep; [|done].
    eapply IH; [|done]. by eapply order_inv_step.
Qed.

Lemma order_inv_reachable s : reachable s → order_inv s.
Proof.
  intros (t0 & w & h & evs & Hrun).
  eapply order_inv_run; [apply order_inv_mount | done].
Qed.

Lemma births_sublist_step bs s ev s' :
  ripples s `sublist_of` (snd <$> bs) →
  step s ev = Some s' →
  ripples s' `sublist_of` (snd <$> (bs ++ born s ev)).
Proof.
  intros Hsub H%step_ripple_side.
  destruct ev as [e|e|e|e|k| |d]; cbn [ripple_step born] in *;
    rewrite ?app_nil_r;
    try (destruct H as (_ & -> & _); exact Hsub).
  - destruct H as (_ & -> & _). rewrite fmap_app. by apply sublist_app.
  - destruct H as (tm & _ & _ & _ & -> & _).
    etrans; [apply sublist_filter | done].
  - destruct H as (_ & _ & -> & _). exact Hsub.
Qed.

Lemma births_sublist_run evs : ∀ bs s s',
  ripples s `sublist_of` (snd <$> bs) →
  run s evs = Some s' →
  ripples s' `sublist_of` (snd <$> (bs ++ births s evs)).
Proof.
  induction evs as [|ev evs IH]; intros bs s s' Hsub Hrun; simpl in *.
  - injection Hrun as <-. by rewrite app_nil_r.
  - destruct (step s ev) as [s1|] eqn:Hstep; [|done].
    rewrite app_assoc. eapply IH; [|done]. by eapply births_sublist_step.
Qed.

Lemma births_sublist_reachable t0 w h evs s :
  run (mount t0 w h) evs = Some s →
  ripples s `sublist_of` (snd <$> births (mount t0 w h) evs).
Proof.
  intros Hrun. apply (births_sublist_run evs [] (mount t0 w h) s); [|done].
  simpl. constructor.
Qed.

(** X1. The collection keeps creation order: in every reachable state it is
    a subsequence of the records created by the clicks of the run, in the
    order of the clicks. *)
Theorem collection_in_creation_order
    (t0 : Z) (w h : N) (evs : list Event) (s : State) :
  run (mount t0 w h) evs = Some s →
  ripples s `sublist_of` (snd <$> births (mount t0 w h) evs).
Proof.
  intros Hrun.
  apply (births_sublist_run evs [] (mount t0 w h) s); [|exact Hrun].
  simpl. apply sublist_nil.
Qed.

(** The theorem at work: of two records the later one survives. *)
Lemma collection_in_creation_order_witness :
  ripples (after mounted [click (MouseEvent.mk 1 1); elapse 1500;
                          click (MouseEvent.mk 2 2);
                          elapse two_seconds; timeout 0])
    `sublist_of`
  (snd <$> births mounted [click (MouseEvent.mk 1 1); elapse 1500;
                           click (MouseEvent.mk 2 2);
                           elapse two_seconds; timeout 0]).
Proof.
  apply (collection_in_creation_order 0 1024 768
           [click (MouseEvent.mk 1 1); elapse 1500; click (MouseEvent.mk 2 2);
            elapse two_seconds; timeout 0]).
  vm_compute. reflexivity.
Defined.



(** X3. React keys.  The [key] of a rendered ripple is its identifier.  If
    the clicks of a run were handled in pairwise different milliseconds, the
    keys of the rendered ripples are pairwise different in the state the run
    reaches. *)
Theorem ripple_keys_unique
    (t0 : Z) (w h : N) (evs : list Event) (s : State) :
  run (mount t0 w h) evs = Some s →
  NoDup ((λ b, b.1 / ticks_per_ms) <$> births (mount t0 w h) evs) →
  NoDup (RippleView.key <$> render_ripples s).
Proof.
  intros Hrun Hms.
  pose proof (birth_inv_reachable _ _ _ _ _ Hrun) as [_ Hb].
  assert (RippleView.key <$> render_ripples s = Ripple.id <$> ripples s) as ->.
  { unfold render_ripples. rewrite <- list_fmap_compose. done. }
  eapply sublist_NoDup; [|apply fmap_sublist; by eapply births_sublist_reachable].
  rewrite <- list_fmap_compose.
  erewrite list_fmap_ext; [exact Hms|].
  intros i [t r] Hi. simpl.
  apply list_elem_of_lookup_2 in Hi. by destruct (Hb t r Hi) as (_ & -> & _).
Qed.

(** The theorem at work: two clicks a millisecond and a half apart. *)
Lemma ripple_keys_unique_witness :
  NoDup (RippleView.key <$>
         render_ripples (after mounted [click (MouseEvent.mk 1 1); elapse 1500;
                                        click (MouseEvent.mk 2 2)])).
Proof.
  apply (ripple_keys_unique 0 1024 768
           [click (MouseEvent.mk 1 1); elapse 1500; click (MouseEvent.mk 2 2)]).
  - vm_compute. reflexivity.
  - refine (bool_decide_unpack _ _). vm_compute. exact I.
Defined.

(** X4. No record without a timer.  In every reachable state the collection
    is a subsequence of the records the pending timers were set for: it
    holds no more records than there are pending timers, and it is empty
    once no timer is pending. *)
Theorem collection_covered_by_timers (s : State) :
  reachable s →
  ripples s `sublist_of` (target <$> timers s) ∧
  (length (ripples s) ≤ length (timers s))%nat ∧
  (timers s = [] → ripples s = []).
Proof.
  intros (Hsub & _)%order_inv_reachable. split_and!.
  - done.
  - apply sublist_length in Hsub. by rewrite length_fmap in Hsub.
  - intros Hnil. rewrite Hnil in Hsub. by apply sublist_nil_r in Hsub.
Qed.

(** The theorem at work: after a same-millisecond pair and one timer. *)
Lemma collection_covered_by_timers_witness :
  (length (ripples (after mounted [click (MouseEvent.mk 1 1); elapse 400;
                                   click (MouseEvent.mk 2 2);
                                   elapse two_seconds; timeout 0]))
   ≤ length (timers (after mounted [click (MouseEvent.mk 1 1); elapse 400;
                                    click (MouseEvent.mk 2 2);
                                    elapse two_seconds; timeout 0])))%nat.
Proof.
  refine (proj1 (proj2 (collection_covered_by_timers
    (after mounted [click (MouseEvent.mk 1 1); elapse 400;
                    click (MouseEvent.mk 2 2); elapse two_seconds; timeout 0]) _))).
  exists 0, 1024%N, 768%N,
    [click (MouseEvent.mk 1 1); elapse 400; click (MouseEvent.mk 2 2);
     elapse two_seconds; timeout 0].
  vm_compute. reflexivity.
Defined.

(** X5. Pending timers are listed in order of expiry, and none is due more
    than two seconds from now.  So if the oldest pending timer has not
    expired, no pending timer has. *)
Theorem timers_in_expiry_order (s : State) :
  reachable s →
  StronglySorted Z.le (due <$> timers s) ∧
  Forall (λ tm, due tm ≤ clock s + two_seconds) (timers s) ∧
  ∀ tm rest, timers s = tm :: rest → clock s < due tm → no_timer_overdue s.
Proof.
  intros (_ & Hsorted & Hall)%order_inv_reachable. split_and!.
  - done.
  - eapply Forall_impl; [done|]. by intros tm [? _].
  - intros tm rest Htimers Hhead tm' Hin. rewrite Htimers in Hsorted, Hin.
    simpl in Hsorted. apply StronglySorted_inv in Hsorted as [_ Hle].
    apply elem_of_cons in Hin as [->|Hin]; [done|].
    eapply Forall_forall in Hle; [|by apply list_elem_of_fmap_2]. lia.
Qed.

(** The theorem at work. *)
Lemma timers_in_expiry_order_witness :
  StronglySorted Z.le
    (due <$> timers (after mounted [click (MouseEvent.mk 1 1); elapse 1500;
                                    click (MouseEvent.mk 2 2)])).
Proof.
  refine (proj1 (timers_in_expiry_order
    (after mounted [click (MouseEvent.mk 1 1); elapse 1500;
                    click (MouseEvent.mk 2 2)]) _)).
  exists 0, 1024%N, 768%N,
    [click (MouseEvent.mk 1 1); elapse 1500; click (MouseEvent.mk 2 2)].
  vm_compute. reflexivity.
Defined.

(** Expired timers can all run, oldest first; that empties the timer list,
    takes no time, only removes records and leaves the cursor side alone. *)
Lemma drain_expired n : ∀ s,
  length (timers s) = n →
  Forall (λ tm, due tm ≤ clock s) (timers s) →
  ∃ s', run s (replicate n (timeout 0)) = Some s' ∧
        timers s' = [] ∧ clock s' = clock s ∧
        ticking s' = ticking s ∧ frames s' = frames s ∧
        style s' = style s ∧ style_log s' = style_log s.
Proof.
  induction n as [|n IH]; intros s Hlen Hall.
  - exists s. split_and!; try done. by apply nil_length_inv.
  - destruct (timers s) as [|[d [nr]] rest] eqn:Htimers; [done|].
    apply Forall_cons in Hall as [Hdue Hrest]. simpl in Hdue, Hlen.
    set (s1 := mkState (clock s)
                 (filter (λ r, Ripple.id r ≠ Ripple.id nr) (ripples s)) rest
                 (ticking s) (frames s) (style s) (style_log s)).
    assert (step s (timeout 0) = Some s1) as Hstep.
    { unfold step, ready, dispatch, run_timer. rewrite Htimers. simpl.
      by rewrite bool_decide_true. }
    destruct (IH s1) as (s' & Hrun & ? & ? & ? & ? & ? & ?); [simpl; lia | done |].
    exists s'. simpl. rewrite Hstep. split_and!; done.
Qed.

(** X6. The collection always drains.  From every reachable state, letting
    two seconds pass and then the pending timers run, oldest first, is a
    possible run; it ends with an empty collection and no pending timer,
    and it does not touch the cursor side of the state. *)
Theorem collection_drains (s : State) :
  reachable s →
  ∃ s', run s (elapse two_seconds :: drain s) = Some s' ∧
        ripples s' = [] ∧ timers s' = [] ∧
        clock s' = clock s + two_seconds ∧
        ticking s' = ticking s ∧ frames s' = frames s ∧
        style s' = style s ∧ style_log s' = style_log s.
Proof.
  intros Hinv%order_inv_reachable.
  set (s1 := mkState (clock s + two_seconds) (ripples s) (timers s)
               (ticking s) (frames s) (style s) (style_log s)).
  assert (step s (elapse two_seconds) = Some s1) as Hstep by done.
  pose proof (order_inv_step _ _ _ Hinv Hstep) as Hinv1.
  destruct (drain_expired (length (timers s)) s1) as
    (s' & Hrun & Hnil & Hclock & ? & ? & ? & ?); [done | |].
  { destruct Hinv as (_ & _ & Hall). eapply Forall_impl; [done|].
    intros tm [? _]. simpl. lia. }
  pose proof (order_inv_run _ _ _ Hinv1 Hrun) as (Hsub & _).
  rewrite Hnil in Hsub. apply sublist_nil_r in Hsub.
  exists s'. unfold drain. cbn [run]. rewrite Hstep. split_and!; done.
Qed.

(** The theorem at work: three records in flight. *)
Lemma collection_drains_witness :
  ∃ s', run (after mounted [click (MouseEvent.mk 1 1); elapse 400;
                            click (MouseEvent.mk 2 2); elapse 700000;
                            click (MouseEvent.mk 3 3)])
            (elapse two_seconds ::
             drain (after mounted [click (MouseEvent.mk 1 1); elapse 400;
                                   click (MouseEvent.mk 2 2); elapse 700000;
                                   click (MouseEvent.mk 3 3)])) = Some s' ∧
        ripples s' = [] ∧ timers s' = [].
Proof.
  destruct (collection_drains
    (after mounted [click (MouseEvent.mk 1 1); elapse 400;
                    click (MouseEvent.mk 2 2); elapse 700000;
                    click (MouseEvent.mk 3 3)]))
    as (s' & Hrun & Hr & Ht & _).
  - exists 0, 1024%N, 768%N,
      [click (MouseEvent.mk 1 1); elapse 400; click (MouseEvent.mk 2 2);
       elapse 700000; click (MouseEvent.mk 3 3)].
    vm_compute. reflexivity.
  - exact (ex_intro _ s' (conj Hrun (conj Hr Ht))).
Defined.

Lemma births_from_clicks evs : ∀ s t r,
  (t, r) ∈ births s evs →
  ∃ e, click e ∈ evs ∧
       Ripple.x r = MouseEvent.clientX e ∧ Ripple.y r = MouseEvent.clientY e.
Proof.
  induction evs as [|ev evs IH]; intros s t r Hin; simpl in Hin.
  - by apply elem_of_nil in Hin.
  - destruct (step s ev) as [s1|]; [|by apply elem_of_nil in Hin].
    apply elem_of_app in Hin as [Hin|Hin].
    + destruct ev as [e|e|e|e|k| |d]; simpl in Hin;
        try (by apply elem_of_nil in Hin).
      apply list_elem_of_singleton in Hin. injection Hin as _ ->.
      exists e. split; [left | done].
    + destruct (IH _ _ _ Hin) as (e & ? & ?). exists e. split; [by right | done].
Qed.

(** X7. Ripples are drawn around clicks.  In every reachable state there is
    one rendered ripple per record, and each is a box of 100 by 100 pixels
    whose centre is the point of a click of the run. *)
Theorem rendered_ripples_around_clicks
    (t0 : Z) (w h : N) (evs : list Event) (s : State) :
  run (mount t0 w h) evs = Some s →
  length (render_ripples s) = length (ripples s) ∧
  ∀ v, v ∈ render_ripples s →
    RippleView.width v = 100 ∧ RippleView.height v = 100 ∧
    ∃ e, click e ∈ evs ∧
         RippleView.left v + RippleView.width v / 2 = MouseEvent.clientX e ∧
         RippleView.top v + RippleView.height v / 2 = MouseEvent.clientY e.
Proof.
  intros Hrun. split; [apply length_fmap|].
  intros v (r & -> & Hr)%list_elem_of_fmap.
  split_and!; [done | done |].
  pose proof (birth_inv_reachable _ _ _ _ _ Hrun) as [Hall _].
  destruct (Hall r Hr) as [t Hb].
  destruct (births_from_clicks _ _ _ _ Hb) as (e & He & Hx & Hy).
  exists e. split; [done|]. simpl. change (100 / 2) with 50. lia.
Qed.

(** The theorem at work: one click at (300, 200). *)
Lemma rendered_ripples_around_clicks_witness :
  length (render_ripples (after mounted [click (MouseEvent.mk 300 200)])) =
  length (ripples (after mounted [click (MouseEvent.mk 300 200)])).
Proof.
  refine (proj1 (rendered_ripples_around_clicks 0 1024 768
                   [click (MouseEvent.mk 300 200)]
                   (after mounted [click (MouseEvent.mk 300 200)]) _)).
  vm_compute. reflexivity.
Defined.

(** ** Rounds of the cursor tracker *)

(** A move event without a position is a touch event without touches; it
    changes nothing in any state. *)
Lemma step_move_no_position s ev :
  is_move ev → pointer_position ev = None → step s ev = Some s.
Proof.
  intros Hmove Hpos. unfold step.
  destruct ev as [e|e|e|e|k| |d]; try done;
    cbn [pointer_position ready dispatch] in *;
    rewrite handleTouchMove_eq; by destruct (TouchEvent.touches e).
Qed.

Lemma first_position_skip ev evs :
  pointer_position ev = None → first_position (ev :: evs) = first_position evs.
Proof. unfold first_position. simpl. by intros ->. Qed.

Lemma first_position_here ev evs x y :
  pointer_position ev = Some (x, y) → first_position (ev :: evs) = Some (x, y).
Proof. unfold first_position. simpl. by intros ->. Qed.

Lemma one_round r : ∀ s,
  ticking s = false → frames s = [] → Forall is_move r →
  ∃ s', run s (r ++ [animationFrame]) = Some s' ∧
        ticking s' = false ∧ frames s' = [] ∧
        style_log s' = style_log s ++ round_writes r ∧
        same_ripple_fields s s'.
Proof.
  induction r as [|ev r IH]; intros s Ht Hf Hall.
  - exists s. unfold run, step. cbn [app ready dispatch].
    rewrite (run_animation_frame_idle _ Hf). unfold round_writes. simpl.
    by rewrite app_nil_r.
  - apply Forall_cons in Hall as [Hmove Hall].
    destruct (pointer_position ev) as [[x y]|] eqn:Hpos.
    + pose proof (step_move_position s _ _ _ Hpos) as Hstep.
      rewrite updateCursor_eq, Ht in Hstep.
      set (s1 := mkState (clock s) (ripples s) (timers s) true
                   (frames s ++ [writeCursor x y]) (style s) (style_log s)) in *.
      assert (frames s1 = [writeCursor x y]) as Hf1 by (simpl; by rewrite Hf).
      eexists. rewrite <- app_comm_cons. cbn [run]. rewrite Hstep.
      rewrite run_app, (run_moves_ticking s1 r Hall eq_refl).
      unfold run, step. cbn [ready dispatch].
      rewrite (run_animation_frame_one _ _ _ Hf1).
      unfold round_writes. rewrite (first_position_here _ _ _ _ Hpos).
      split_and!; done.
    + destruct (IH s Ht Hf Hall) as (s' & Hrun & ? & ? & ? & ?).
      exists s'. rewrite <- app_comm_cons. cbn [run].
      rewrite (step_move_no_position _ _ Hmove Hpos).
      unfold round_writes. rewrite (first_position_skip _ _ Hpos).
      split_and!; done.
Qed.

(** X8. One write per round, of the round's first position.  From a
    reachable state with no update queued, play any number of rounds, each
    made of move events and closed by an animation frame.  The run goes
    through; every round writes the first position it carries, or nothing if
    it carries none; the throttle is open again at the end; clock,
    collection and timers are untouched. *)
Theorem cursor_rounds (s : State) (rounds : list (list Event)) :
  reachable s →
  ticking s = false →
  Forall (Forall is_move) rounds →
  ∃ s', run s (play rounds) = Some s' ∧
        ticking s' = false ∧ frames s' = [] ∧
        style_log s' = style_log s ++ rounds_writes rounds ∧
        clock s' = clock s ∧ ripples s' = ripples s ∧ timers s' = timers s.
Proof.
  intros Hreach%cursor_inv_reachable Ht Hall.
  destruct Hreach as [[_ Hf]|[Ht' _]]; [|congruence].
  revert s Ht Hf. induction Hall as [|r rounds Hr _ IH]; intros s Ht Hf.
  - exists s. simpl. by rewrite app_nil_r.
  - destruct (one_round r s Ht Hf Hr) as (s1 & Hrun1 & Ht1 & Hf1 & Hlog1 & Hc & Hrp & Htm).
    destruct (IH s1 Ht1 Hf1) as (s' & Hrun & ? & ? & Hlog & ? & ? & ?).
    exists s'. cbn [play rounds_writes].
    change (r ++ animationFrame :: play rounds)
      with (r ++ [animationFrame] ++ play rounds).
    rewrite app_assoc, run_app, Hrun1. split_and!; try done; try congruence.
    by rewrite Hlog, Hlog1, <- app_assoc.
Qed.

(** The theorem at work: a touch sequence, an empty round, a mouse round. *)
Lemma cursor_rounds_witness :
  ∃ s', run mounted
          (play [[touchstart (TouchEvent.mk []);
                  touchstart (TouchEvent.mk [Touch.mk 5 6]);
                  touchmove (TouchEvent.mk [Touch.mk 7 8])];
                 [];
                 [mousemove (MouseEvent.mk 9 10)]]) = Some s' ∧
        style_log s' =
          style_log mounted ++
          [("--cursor-x", "5px"); ("--cursor-y", "6px");
           ("--cursor-x", "9px"); ("--cursor-y", "10px")].
Proof.
  destruct (cursor_rounds mounted
              [[touchstart (TouchEvent.mk []);
                touchstart (TouchEvent.mk [Touch.mk 5 6]);
                touchmove (TouchEvent.mk [Touch.mk 7 8])];
               [];
               [mousemove (MouseEvent.mk 9 10)]])
    as (s' & Hrun & _ & _ & Hlog & _).
  - exists 0, 1024%N, 768%N, []. reflexivity.
  - reflexivity.
  - repeat constructor.
  - exists s'. split; [exact Hrun | exact Hlog].
Defined.

(** X9. Every animation frame reopens the throttle.  In a reachable state
    an animation frame always runs; afterwards nothing is queued and
    [ticking] is false, so the next move event that carries a position is
    queued.  A frame with nothing queued leaves the state exactly as it
    was: no redundant write. *)
Theorem animation_frame_reopens (s : State) :
  reachable s →
  ∃ s', step s animationFrame = Some s' ∧
        ticking s' = false ∧ frames s' = [] ∧
        (ticking s = false → s' = s) ∧
        ∀ ev x y, pointer_position ev = Some (x, y) →
          ∃ s'', step s' ev = Some s'' ∧
                 ticking s'' = true ∧ frames s'' = [writeCursor x y].
Proof.
  intros Hinv%cursor_inv_reachable.
  assert (∀ s', ticking s' = false → frames s' = [] →
            ∀ ev x y, pointer_position ev = Some (x, y) →
              ∃ s'', step s' ev = Some s'' ∧
                     ticking s'' = true ∧ frames s'' = [writeCursor x y]) as Hnext.
  { intros s' Ht Hf ev x y Hpos. rewrite (step_move_position _ _ _ _ Hpos).
    rewrite updateCursor_eq, Ht. eexists. split_and!; [done | done |].
    simpl. by rewrite Hf. }
  unfold step. cbn [ready dispatch].
  destruct Hinv as [[Ht Hf]|[Ht (x & y & Hf)]].
  - rewrite (run_animation_frame_idle _ Hf). exists s.
    split_and!; [done | done | done | done | by apply Hnext].
  - rewrite (run_animation_frame_one _ _ _ Hf). eexists.
    split_and!; [done | done | done | congruence | by apply Hnext].
Qed.

(** The theorem at work: a frame on the freshly mounted component. *)
Lemma animation_frame_reopens_witness :
  step mounted animationFrame = Some mounted.
Proof.
  destruct (animation_frame_reopens mounted) as (s' & Hstep & _ & _ & Hsame & _).
  - exists 0, 1024%N, 768%N, []. reflexivity.
  - rewrite Hstep. f_equal. apply Hsame. reflexivity.
Defined.

(** ** The two sides of the state do not interfere *)

Lemma with_cursor_of_self t c :
  same_cursor_fields c t → with_cursor_of t c = t.
Proof. destruct t. unfold with_cursor_of. by intros (-> & -> & -> & ->). Qed.

Lemma run_frame_callbacks_cursor cbs : ∀ s t s',
  same_cursor_fields s t →
  run_frame_callbacks cbs s = Ok tt s' →
  run_frame_callbacks cbs t = Ok tt (with_cursor_of t s').
Proof.
  induction cbs as [|[x y] cbs IH]; intros s t s' Hsame; cbn [run_frame_callbacks].
  - intros [= <-]. unfold ret. f_equal. symmetry. by apply with_cursor_of_self.
  - unfold bind. rewrite !run_frame_callback_eq.
    destruct Hsame as (Ht & Hf & Hs & Hl). intros Hrun.
    eapply IH in Hrun; [rewrite Hrun; reflexivity|].
    simpl. rewrite Hf, Hs, Hl. done.
Qed.

(** A cursor event acts on the cursor side only, whatever the ripple side. *)
Lemma cursor_event_local ev s t s' :
  is_cursor_event ev → same_cursor_fields s t →
  step s ev = Some s' → step t ev = Some (with_cursor_of t s').
Proof.
  intros Hev Hsame.
  assert (∀ x y, match updateCursor x y s with Ok _ s1 => Some s1 | Throw _ => None end
                   = Some s' →
                 match updateCursor x y t with Ok _ s1 => Some s1 | Throw _ => None end
                   = Some (with_cursor_of t s')) as Hupd.
  { intros x y. rewrite !updateCursor_eq.
    destruct Hsame as (Ht & Hf & Hs & Hl). rewrite <- Ht.
    destruct (ticking s) eqn:Hts; intros [= <-]; f_equal.
    - destruct t. simpl in *. unfold with_cursor_of. simpl. congruence.
    - unfold with_cursor_of. simpl. congruence. }
  destruct (pointer_position ev) as [[x y]|] eqn:Hpos.
  { rewrite !(step_move_position _ _ _ _ Hpos). apply Hupd. }
  destruct ev as [e|e|e|e|k| |d]; try done.
  - rewrite !step_move_no_position by done. intros [= <-].
    f_equal. symmetry. by apply with_cursor_of_self.
  - rewrite !step_move_no_position by done. intros [= <-].
    f_equal. symmetry. by apply with_cursor_of_self.
  - unfold step. cbn [ready dispatch]. unfold run_animation_frame.
    intros Hrun%outcome_unit_eq.
    destruct Hsame as (Ht & Hf & Hs & Hl). rewrite <- Hf.
    eapply run_frame_callbacks_cursor in Hrun; [rewrite Hrun; reflexivity|].
    split_and!; done.
Qed.

Lemma cursor_event_total ev s :
  is_cursor_event ev → is_Some (step s ev).
Proof.
  intros Hev. unfold step.
  destruct ev as [e|e|e|e|k| |d]; try done; cbn [ready dispatch].
  - unfold handleMouseMove. rewrite updateCursor_eq. by destruct (ticking s).
  - rewrite handleTouchMove_eq. destruct (TouchEvent.touches e); [done|].
    rewrite updateCursor_eq. by destruct (ticking s).
  - rewrite handleTouchMove_eq. destruct (TouchEvent.touches e); [done|].
    rewrite updateCursor_eq. by destruct (ticking s).
  - unfold run_animation_frame.
    destruct (run_frame_callbacks_ripple_side (frames s)
      (mkState (clock s) (ripples s) (timers s) (ticking s) [] (style s) (style_log s)))
      as (s' & -> & _). done.
Qed.

(** A ripple event acts on the ripple side only, whatever the cursor side,
    and whether it can happen depends on the ripple side only. *)
Lemma ripple_event_local ev s t :
  is_ripple_event ev → same_ripple_fields s t →
  step t ev = (λ s', with_cursor_of s' t) <$> step s ev.
Proof.
  intros Hev (Hc & Hr & Htm). unfold step.
  destruct ev as [e|e|e|e|k| |d]; try done; cbn [ready dispatch].
  - rewrite !handleWaterClick_eq. unfold ripple_at, with_cursor_of. simpl.
    by rewrite Hc, Hr, Htm.
  - unfold run_timer. rewrite <- Htm, <- Hc.
    destruct (timers s !! k) as [[d [nr]]|]; [|done]. simpl.
    case_bool_decide; [|done]. unfold with_cursor_of. simpl. by rewrite <- Hr.
  - case_bool_decide; [|done]. unfold with_cursor_of. simpl.
    by rewrite Hc, Hr, Htm.
Qed.

(** X10. Ripple events and cursor events commute.  A click, a timer or the
    passing of time on one hand, a move event or an animation frame on the
    other, lead to the same state in either order, and are possible in one
    order exactly when they are in the other. *)
Theorem ripple_and_cursor_events_commute (s : State) (ev1 ev2 : Event) :
  is_ripple_event ev1 →
  is_cursor_event ev2 →
  run s [ev1; ev2] = run s [ev2; ev1].
Proof.
  intros H1 H2. cbn [run].
  destruct (cursor_event_total ev2 s H2) as [s2 Hs2]. rewrite Hs2.
  assert (same_ripple_fields s s2) as Hrip.
  { apply step_ripple_side in Hs2. unfold same_ripple_fields.
    destruct ev2; try done; cbn [ripple_step] in Hs2;
      by same_ripple_side Hs2. }
  rewrite (ripple_event_local ev1 s s2 H1 Hrip).
  destruct (step s ev1) as [s1|] eqn:Hs1; [|done]. simpl.
  assert (same_cursor_fields s s1) as Hcur.
  { apply step_cursor_side in Hs1. unfold same_cursor_fields.
    destruct ev1; try done; cbn [cursor_step] in Hs1;
      destruct Hs1 as (Ht & Hf & Hst & Hl); by rewrite Ht, Hf, Hst, Hl. }
  by rewrite (cursor_event_local ev2 s s1 s2 H2 Hcur Hs2).
Qed.

(** The theorem at work: a click and a move, in both orders. *)
Lemma ripple_and_cursor_events_commute_witness :
  run mounted [click (MouseEvent.mk 300 200); mousemove (MouseEvent.mk 10 20)] =
  run mounted [mousemove (MouseEvent.mk 10 20); click (MouseEvent.mk 300 200)].
Proof.
  apply (ripple_and_cursor_events_commute mounted
           (click (MouseEvent.mk 300 200)) (mousemove (MouseEvent.mk 10 20)));
    exact I.
Defined.

(** ** The cursor effect and its cleanup *)

Lemma existsb_foreign type cb ls :
  (∀ n, cb ≠ other_listener n) → Forall foreign ls →
  existsb (same_listener type cb false) ls = false.
Proof.
  intros Hcb Hall. induction Hall as [|l ls [n Hl] _ IH]; [done|].
  simpl. rewrite IH, orb_false_r. unfold same_listener.
  apply bool_decide_eq_false. intros (_ & Heq & _). rewrite Hl in Heq.
  by eapply Hcb.
Qed.

Lemma existsb_app_false {A} (f : A → bool) (l1 l2 : list A) :
  existsb f l1 = false → existsb f l2 = false → existsb f (l1 ++ l2) = false.
Proof. intros H1 H2. by rewrite existsb_app, H1, H2. Qed.

Lemma removeEventListener_middle type cb ls l rest :
  (∀ n, cb ≠ other_listener n) → Forall foreign ls →
  same_listener type cb false l = true →
  removeEventListener type cb (ls ++ l :: rest) = ls ++ rest.
Proof.
  intros Hcb Hall Hl. induction Hall as [|l0 ls [n Hl0] _ IH]; simpl.
  - by rewrite Hl.
  - rewrite IH. unfold same_listener at 1.
    rewrite bool_decide_eq_false_2; [done|].
    intros (_ & Heq & _). rewrite Hl0 in Heq. by eapply Hcb.
Qed.

(** What the effect makes of a page that holds only listeners of other
    code. *)
Lemma cursorEffect_eq w h p :
  Forall foreign (listeners p) →
  cursorEffect w h p =
  Some (mkPage
          (mkState (clock (component p)) (ripples (component p)) (timers (component p)) false
             (frames (component p))
             (<["--cursor-y" := half_px h]>
                (<["--cursor-x" := half_px w]> (style (component p))))
             (style_log (component p) ++
                [("--cursor-x", half_px w); ("--cursor-y", half_px h)]))
          (listeners p ++
             [mkListener "mousemove" the_handleMouseMove false true;
              mkListener "touchmove" the_handleTouchMove false true;
              mkListener "touchstart" the_handleTouchMove false true])).
Proof.
  intros Hall. unfold cursorEffect.
  assert (addEventListener "mousemove" the_handleMouseMove true (listeners p) =
          listeners p ++ [mkListener "mousemove" the_handleMouseMove false true])
    as ->.
  { unfold addEventListener. by rewrite existsb_foreign. }
  assert (addEventListener "touchmove" the_handleTouchMove true
            (listeners p ++ [mkListener "mousemove" the_handleMouseMove false true]) =
          listeners p ++ [mkListener "mousemove" the_handleMouseMove false true;
                          mkListener "touchmove" the_handleTouchMove false true])
    as ->.
  { unfold addEventListener.
    rewrite existsb_app_false; [|by apply existsb_foreign|done].
    by rewrite <- app_assoc. }
  assert (addEventListener "touchstart" the_handleTouchMove true
            (listeners p ++ [mkListener "mousemove" the_handleMouseMove false true;
                             mkListener "touchmove" the_handleTouchMove false true]) =
          listeners p ++ [mkListener "mousemove" the_handleMouseMove false true;
                          mkListener "touchmove" the_handleTouchMove false true;
                          mkListener "touchstart" the_handleTouchMove false true])
    as ->.
  { unfold addEventListener.
    rewrite existsb_app_false; [|by apply existsb_foreign|done].
    by rewrite <- app_assoc. }
  unfold exec, bind, set_ticking, setProperty. simpl. by rewrite <- app_assoc.
Qed.

(** X11. The cleanup undoes the registration.  On a page that holds only
    listeners of other code, the effect adds three listeners at the end of
    the list ([handleMouseMove] for [mousemove], [handleTouchMove] for
    [touchmove] and for [touchstart], all passive), and its cleanup removes
    exactly these, although it names no options: the listener list is again
    what it was, in the same order. *)
Theorem cleanup_undoes_registration (w h : N) (p : Page) :
  Forall foreign (listeners p) →
  ∃ p', cursorEffect w h p = Some p' ∧
        listeners p' =
          listeners p ++
            [mkListener "mousemove" the_handleMouseMove false true;
             mkListener "touchmove" the_handleTouchMove false true;
             mkListener "touchstart" the_handleTouchMove false true] ∧
        listeners (cursorEffect_cleanup p') = listeners p ∧
        component (cursorEffect_cleanup p') = component p'.
Proof.
  intros Hall. eexists. split; [by apply cursorEffect_eq|].
  split_and!; [done | | done].
  unfold cursorEffect_cleanup. cbn [listeners].
  rewrite (removeEventListener_middle "mousemove") by done.
  rewrite (removeEventListener_middle "touchmove") by done.
  rewrite (removeEventListener_middle "touchstart" _ _ _ []) by done.
  by rewrite app_nil_r.
Qed.

(** The theorem at work: a page with two listeners of other code. *)
Lemma cleanup_undoes_registration_witness :
  ∃ p', cursorEffect 1024 768
          (mkPage (mkState 0 [] [] false [] ∅ [])
                  [mkListener "mousemove" (other_listener 1) false false;
                   mkListener "touchmove" (other_listener 2) true true])
        = Some p' ∧
        listeners (cursorEffect_cleanup p') =
          [mkListener "mousemove" (other_listener 1) false false;
           mkListener "touchmove" (other_listener 2) true true].
Proof.
  destruct (cleanup_undoes_registration 1024 768
              (mkPage (mkState 0 [] [] false [] ∅ [])
                      [mkListener "mousemove" (other_listener 1) false false;
                       mkListener "touchmove" (other_listener 2) true true]))
    as (p' & Heff & _ & Hls & _).
  - repeat constructor; eexists; reflexivity.
  - exists p'. split; [exact Heff | exact Hls].
Defined.

Lemma call_listeners_foreign ls ev s :
  Forall foreign ls → call_listeners ls ev s = Some s.
Proof.
  induction 1 as [|l ls [n Hl] _ IH]; [done|].
  simpl. rewrite Hl. by destruct ev.
Qed.

Lemma call_listeners_app l1 l2 ev s :
  call_listeners (l1 ++ l2) ev s =
  match call_listeners l1 ev s with
  | Some s' => call_listeners l2 ev s'
  | None => None
  end.
Proof.
  revert s. induction l1 as [|l l1 IH]; intros s; simpl; [done|].
  destruct (invoke (l_callback l) ev) as [m|]; [|done].
  destruct (exec m s); [apply IH | done].
Qed.

Lemma Forall_foreign_filter (P : Listener → Prop) `{!∀ l, Decision (P l)} ls :
  Forall foreign ls → Forall foreign (filter P ls).
Proof. intros Hall. eapply Forall_sublist_of; [apply sublist_filter | done]. Qed.

(** On a list of other code's listeners followed by the three of the
    effect, a move event ends up in the handler registered for its type. *)
Lemma deliver_registered ev ls s :
  is_move ev → Forall foreign ls →
  deliver ev (mkPage s (ls ++
    [mkListener "mousemove" the_handleMouseMove false true;
     mkListener "touchmove" the_handleTouchMove false true;
     mkListener "touchstart" the_handleTouchMove false true])) =
  match step s ev with
  | Some s' => Some (mkPage s' (ls ++
      [mkListener "mousemove" the_handleMouseMove false true;
       mkListener "touchmove" the_handleTouchMove false true;
       mkListener "touchstart" the_handleTouchMove false true]))
  | None => None
  end.
Proof.
  intros Hmove Hall. unfold deliver.
  destruct ev as [e|e|e|e|k| |d]; try done; cbn [event_type component listeners];
    rewrite filter_app, call_listeners_app,
      (call_listeners_foreign _ _ _ (Forall_foreign_filter _ _ Hall));
    unfold step; cbn [ready dispatch].
  - change (filter _ [_; _; _])
      with [mkListener "mousemove" the_handleMouseMove false true].
    cbn [call_listeners l_callback invoke]. unfold exec.
    by destruct (handleMouseMove e s).
  - change (filter _ [_; _; _])
      with [mkListener "touchmove" the_handleTouchMove false true].
    cbn [call_listeners l_callback invoke]. unfold exec.
    by destruct (handleTouchMove e s).
  - change (filter _ [_; _; _])
      with [mkListener "touchstart" the_handleTouchMove false true].
    cbn [call_listeners l_callback invoke]. unfold exec.
    by destruct (handleTouchMove e s).
Qed.

(** X12. Each move event reaches its handler once.  After the effect has
    run on a page that held only listeners of other code, [window] hands a
    [mousemove] to [handleMouseMove] and a [touchmove] or [touchstart] to
    [handleTouchMove]: delivering the event changes the component exactly as
    the handler does, and leaves the listener list alone. *)
Theorem listeners_reach_handlers (w h : N) (p p' : Page) (ev : Event) :
  Forall foreign (listeners p) →
  cursorEffect w h p = Some p' →
  is_move ev →
  ∃ s', dispatch ev (component p') = Ok tt s' ∧
        deliver ev p' = Some (mkPage s' (listeners p')).
Proof.
  intros Hall Heff Hmove. rewrite (cursorEffect_eq _ _ _ Hall) in Heff.
  injection Heff as <-. cbn [component listeners].
  rewrite (deliver_registered _ _ _ Hmove Hall).
  destruct (cursor_event_total ev
    (mkState (clock (component p)) (ripples (component p)) (timers (component p))
       false (frames (component p))
       (<["--cursor-y" := half_px h]>
          (<["--cursor-x" := half_px w]> (style (component p))))
       (style_log (component p) ++
          [("--cursor-x", half_px w); ("--cursor-y", half_px h)])))
    as [s' Hs'].
  { by destruct ev. }
  rewrite Hs'. exists s'. split; [|done].
  unfold step in Hs'. destruct ev; try done; cbn [ready] in Hs';
    by apply outcome_unit_eq.
Qed.

(** The theorem at work: a touch start on a freshly set up page. *)
Lemma listeners_reach_handlers_witness :
  ∃ p' s',
    cursorEffect 1024 768
      (mkPage (mkState 0 [] [] false [] ∅ [])
              [mkListener "touchstart" (other_listener 1) false false]) = Some p' ∧
    deliver (touchstart (TouchEvent.mk [Touch.mk 5 6])) p' =
      Some (mkPage s' (listeners p')) ∧
    frames s' = [writeCursor 5 6].
Proof.
  destruct (listeners_reach_handlers 1024 768
    (mkPage (mkState 0 [] [] false [] ∅ [])
            [mkListener "touchstart" (other_listener 1) false false])
    (default (mkPage (mkState 0 [] [] false [] ∅ []) [])
       (cursorEffect 1024 768
          (mkPage (mkState 0 [] [] false [] ∅ [])
                  [mkListener "touchstart" (other_listener 1) false false])))
    (touchstart (TouchEvent.mk [Touch.mk 5 6])))
    as (s' & Hdisp & Hdel).
  - repeat constructor. eexists. reflexivity.
  - reflexivity.
  - exact I.
  - eexists _, s'. split_and!; [reflexivity | exact Hdel |].
    vm_compute in Hdisp. by injection Hdisp as <-.
Defined.

(** X13. The cleanup does not cancel a queued update.  Set the effect up on
    a page with nothing queued, deliver one move event that carries a
    position, then run the cleanup.  From then on move events delivered by
    [window] change nothing; but the update queued before the cleanup is
    still there, and the next animation frame writes its position to the
    style variables. *)
Theorem cleanup_keeps_queued_frame
    (w h : N) (p p1 : Page) (ev : Event) (x y : Z) :
  Forall foreign (listeners p) →
  frames (component p) = [] →
  cursorEffect w h p = Some p1 →
  pointer_position ev = Some (x, y) →
  ∃ p2 s4,
    deliver ev p1 = Some p2 ∧
    listeners (cursorEffect_cleanup p2) = listeners p ∧
    (∀ ev', is_move ev' →
       deliver ev' (cursorEffect_cleanup p2) = Some (cursorEffect_cleanup p2)) ∧
    frames (component (cursorEffect_cleanup p2)) = [writeCursor x y] ∧
    step (component (cursorEffect_cleanup p2)) animationFrame = Some s4 ∧
    style_log s4 =
      style_log (component p1) ++ [("--cursor-x", px x); ("--cursor-y", px y)] ∧
    style s4 !! "--cursor-x" = Some (px x) ∧
    style s4 !! "--cursor-y" = Some (px y).
Proof.
  intros Hall Hf Heff Hpos. rewrite (cursorEffect_eq _ _ _ Hall) in Heff.
  injection Heff as <-.
  assert (is_move ev) as Hmove by (by destruct ev).
  rewrite (deliver_registered _ _ _ Hmove Hall).
  rewrite (step_move_position _ _ _ _ Hpos), updateCursor_eq.
  cbn [ticking clock ripples timers frames style style_log component].
  rewrite Hf. cbn [app].
  eexists _, _. split; [reflexivity|].
  assert (removeEventListener "touchstart" the_handleTouchMove
            (removeEventListener "touchmove" the_handleTouchMove
               (removeEventListener "mousemove" the_handleMouseMove
                  (listeners p ++
                     [mkListener "mousemove" the_handleMouseMove false true;
                      mkListener "touchmove" the_handleTouchMove false true;
                      mkListener "touchstart" the_handleTouchMove false true])))
          = listeners p) as Hclean.
  { rewrite (removeEventListener_middle "mousemove") by done.
    rewrite (removeEventListener_middle "touchmove") by done.
    rewrite (removeEventListener_middle "touchstart" _ _ _ []) by done.
    by rewrite app_nil_r. }
  unfold cursorEffect_cleanup. cbn [component listeners]. rewrite Hclean.
  split_and!.
  - done.
  - intros ev' Hmove'. unfold deliver.
    destruct ev' as [e|e|e|e|k| |d]; try done; cbn [event_type component listeners];
      by rewrite (call_listeners_foreign _ _ _ (Forall_foreign_filter _ _ Hall)).
  - done.
  - unfold step. cbn [ready dispatch].
    by rewrite (run_animation_frame_one _ x y) by done.
  - done.
  - simpl. by rewrite lookup_insert_ne, lookup_insert_eq.
  - simpl. by rewrite lookup_insert_eq.
Qed.

(** The theorem at work: a mouse move, then the cleanup, then a frame. *)
Lemma cleanup_keeps_queued_frame_witness :
  ∃ p1 p2 s4,
    cursorEffect 1024 768 (mkPage (mkState 0 [] [] false [] ∅ []) []) = Some p1 ∧
    deliver (mousemove (MouseEvent.mk 10 20)) p1 = Some p2 ∧
    listeners (cursorEffect_cleanup p2) = [] ∧
    step (component (cursorEffect_cleanup p2)) animationFrame = Some s4 ∧
    style s4 !! "--cursor-x" = Some "10px".
Proof.
  destruct (cleanup_keeps_queued_frame 1024 768
    (mkPage (mkState 0 [] [] false [] ∅ []) [])
    (default (mkPage (mkState 0 [] [] false [] ∅ []) [])
       (cursorEffect 1024 768 (mkPage (mkState 0 [] [] false [] ∅ []) [])))
    (mousemove (MouseEvent.mk 10 20)) 10 20)
    as (p2 & s4 & Hdel & Hls & _ & _ & Hstep & _ & Hx & _).
  - constructor.
  - reflexivity.
  - reflexivity.
  - reflexivity.
  - eexists _, p2, s4. split_and!; [reflexivity | exact Hdel | exact Hls | exact Hstep | exact Hx].
Defined.

(** The state the claims start from is what the effect makes of a blank
    page. *)
Lemma mount_is_effect_on_blank (t0 : Z) (w h : N) :
  component <$> cursorEffect w h (mkPage (mkState t0 [] [] false [] ∅ []) []) =
  Some (mount t0 w h).
Proof. reflexivity. Qed.

(** ** The scroll translation, for every progress *)

Lemma clamp01_range (p : Q) : (0 <= clamp01 p)%Q ∧ (clamp01 p <= 1)%Q.
Proof.
  unfold clamp01.
  destruct (Qle_bool p 0) eqn:H0; [split; [apply Qle_refl | by vm_compute]|].
  destruct (Qle_bool 1 p) eqn:H1; [split; [by vm_compute | apply Qle_refl]|].
  split.
  - apply Qlt_le_weak, Qnot_le_lt. intros Hle%Qle_bool_iff. congruence.
  - apply Qlt_le_weak, Qnot_le_lt. intros Hle%Qle_bool_iff. congruence.
Qed.



(** X15. The content layer always covers the viewport.  Whatever the
    progress, the 700vh layer is moved up by at most 599.998vh and never
    down: its top edge is at or above the top of the 100vh viewport and its
    bottom edge at or below the bottom. *)
Theorem layer_covers_viewport (p : Q) :
  (- (599998 # 1000) <= offset_vh (yTranslate p))%Q ∧
  (offset_vh (yTranslate p) <= 0)%Q ∧
  (100 <= offset_vh (yTranslate p) + layer_height_vh)%Q.
Proof.
  pose proof (clamp01_range p) as [H0 H1].
  unfold offset_vh, layer_height_vh, yTranslate, mix, yTranslate_from, yTranslate_to.
  unfold Qdiv. change (/ 100)%Q with (1 # 100)%Q.
  split_and!; lra.
Qed.
